(** * DiffDART: the differentiable contact constraint and the Dantzig LCP wrapper

    A shallow embedding of
    [dart/neural/DifferentiableContactConstraint.cpp] and
    [dart/constraint/DantzigBoxedLcpSolver.cpp].

    - [double] is an abstract scalar type ([Scalar]): the dispatch theorems
      hold for every arithmetic, IEEE binary64 included.  Theorems that need
      algebra say which laws they use ([ScalarLaws]); exact rationals ([Qc])
      satisfy them and serve as the executable instance.
    - Pointers to joints and body nodes are values of the inductive types
      [Joint] and [BodyNode]; a joint carries its address, and pointer
      comparison compares addresses.
    - What the two files call and do not define (the kinematics oracle,
      [dart::math], the ODE tangent basis, [dSolveLCP]) is a field of the
      classes [Collaborators] and [LcpRoutine]; [Scene] instantiates them.
    - A dereference of a null [shared_ptr] has no result: the functions that
      can reach one return [option]. *)

From Stdlib Require Import ZArith QArith Qcanon Bool String PrimFloat.
From stdpp Require Import base list.

Local Open Scope Z_scope.

(** ** Scalars *)

Class Scalar (D : Type) := {
  s0 : D;                       (* 0.0 *)
  s1 : D;                       (* 1.0 *)
  sadd : D -> D -> D;
  ssub : D -> D -> D;
  smul : D -> D -> D;
  sopp : D -> D;
  seqb : D -> D -> bool;        (* == *)
  sleb : D -> D -> bool;        (* <= *)
  sltb : D -> D -> bool;        (* < *)
  s1em12 : D                    (* the literal 1e-12 *)
}.

(** The algebra some theorems rely on. *)
Class ScalarLaws (D : Type) `{Scalar D} : Prop := {
  sadd_comm : forall a b : D, sadd a b = sadd b a;
  smul_comm : forall a b : D, smul a b = smul b a;
  sadd_0_l : forall a : D, sadd s0 a = a;
  smul_0_l : forall a : D, smul s0 a = s0;
  ssub_diag : forall a : D, ssub a a = s0;
  seqb_eq : forall a b : D, seqb a b = true <-> a = b;
  s1_neq_s0 : (s1 : D) <> s0;
  sopp_s1_neq_s0 : sopp (s1 : D) <> s0
}.

(** ** Eigen vectors *)

Section Vectors.
Context {D : Type} `{Scalar D}.

Record Vector3d := V3 { vx : D; vy : D; vz : D }.

(* Eigen::Vector6d, read and written through head<3>() and tail<3>() *)
Record Vector6d := V6 { head3 : Vector3d; tail3 : Vector3d }.

Definition Zero3 : Vector3d := V3 s0 s0 s0.
Definition Zero6 : Vector6d := V6 Zero3 Zero3.

Definition cross (a b : Vector3d) : Vector3d :=
  V3 (ssub (smul (vy a) (vz b)) (smul (vz a) (vy b)))
     (ssub (smul (vz a) (vx b)) (smul (vx a) (vz b)))
     (ssub (smul (vx a) (vy b)) (smul (vy a) (vx b))).

(* operator+ *)
Definition vadd (a b : Vector3d) : Vector3d :=
  V3 (sadd (vx a) (vx b)) (sadd (vy a) (vy b)) (sadd (vz a) (vz b)).

Definition dot3 (a b : Vector3d) : D :=
  sadd (sadd (smul (vx a) (vx b)) (smul (vy a) (vy b))) (smul (vz a) (vz b)).

Definition squaredNorm (a : Vector3d) : D := dot3 a a.

Definition dot (a b : Vector6d) : D :=
  sadd (dot3 (head3 a) (head3 b)) (dot3 (tail3 a) (tail3 b)).
End Vectors.

Arguments Vector3d D : clear implicits.
Arguments Vector6d D : clear implicits.

(** ** The executable instances: exact rationals and binary64 *)

Module RationalScalar.
Definition Qc_eqb (a b : Qc) : bool := Qeq_bool a b.
Definition Qc_leb (a b : Qc) : bool := Qle_bool a b.
Definition Qc_ltb (a b : Qc) : bool := negb (Qle_bool b a).

#[export] Instance Qc_Scalar : Scalar Qc := {|
  s0 := Q2Qc 0;
  s1 := Q2Qc 1;
  sadd := Qcplus;
  ssub := Qcminus;
  smul := Qcmult;
  sopp := Qcopp;
  seqb := Qc_eqb;
  sleb := Qc_leb;
  sltb := Qc_ltb;
  s1em12 := Q2Qc (1 # 1000000000000)
|}.
End RationalScalar.

Module DoubleScalar.
#[export] Instance float_Scalar : Scalar float := {|
  s0 := 0%float;
  s1 := 1%float;
  sadd := PrimFloat.add;
  ssub := PrimFloat.sub;
  smul := PrimFloat.mul;
  sopp := PrimFloat.opp;
  seqb := PrimFloat.eqb;
  sleb := PrimFloat.leb;
  sltb := PrimFloat.ltb;
  s1em12 := 0x1.19799812dea11p-40%float
|}.
End DoubleScalar.

(** ** Enumerations *)

(** Modelled from the spec: [collision::ContactType] is declared in
    [dart/collision/Contact.hpp]; the data model lists its four values. *)
Module collision.
Inductive ContactType : Type :=
  | UNSUPPORTED
  | VERTEX_FACE
  | FACE_VERTEX
  | EDGE_EDGE.
End collision.

(** Modelled from the spec: [DofContactType] is declared in
    [DifferentiableContactConstraint.hpp]; the data model lists its values,
    the source uses each of them. *)
Inductive DofContactType : Type :=
  | NONE
  | UNSUPPORTED
  | VERTEX
  | FACE
  | EDGE_A
  | EDGE_B
  | VERTEX_FACE_SELF_COLLISION
  | EDGE_EDGE_SELF_COLLISION.

(* operator== on the enumeration *)
Definition DofContactType_eqb (a b : DofContactType) : bool :=
  match a, b with
  | NONE, NONE | UNSUPPORTED, UNSUPPORTED | VERTEX, VERTEX | FACE, FACE
  | EDGE_A, EDGE_A | EDGE_B, EDGE_B
  | VERTEX_FACE_SELF_COLLISION, VERTEX_FACE_SELF_COLLISION
  | EDGE_EDGE_SELF_COLLISION, EDGE_EDGE_SELF_COLLISION => true
  | _, _ => false
  end.

Infix "==?" := DofContactType_eqb (at level 70, no associativity).

(* the types for which getContactForceGradient consults the normal gradient *)
Definition moves_normal (t : DofContactType) : bool :=
  match t with
  | VERTEX | NONE | UNSUPPORTED => false
  | _ => true
  end.

(** ** The kinematic tree

    [Joint*] and [BodyNode*]: a joint knows its skeleton's name, its tree,
    the index of its first coordinate in the tree and its parent body node
    (null at the root); a body node knows its parent joint, which
    [isParent] dereferences without a test. *)

Inductive Joint : Type :=
  | mkJoint (address : nat) (skeletonName : string)
            (treeIndex : nat) (indexInTree0 : nat)
            (parentBodyNode : option BodyNode)
with BodyNode : Type :=
  | mkBodyNode (parentJoint : Joint).

Definition getAddress (j : Joint) : nat :=
  match j with mkJoint a _ _ _ _ => a end.
Definition getSkeletonName (j : Joint) : string :=
  match j with mkJoint _ s _ _ _ => s end.
Definition getTreeIndex (j : Joint) : nat :=
  match j with mkJoint _ _ t _ _ => t end.
Definition getIndexInTree0 (j : Joint) : nat :=
  match j with mkJoint _ _ _ i _ => i end.
Definition getParentBodyNode (j : Joint) : option BodyNode :=
  match j with mkJoint _ _ _ _ p => p end.
Definition getParentJoint (b : BodyNode) : Joint :=
  match b with mkBodyNode j => j end.

(* comparison of two Joint pointers *)
Definition Joint_ptr_eqb (a b : Joint) : bool :=
  Nat.eqb (getAddress a) (getAddress b).

Record DegreeOfFreedom : Type := mkDof {
  getJoint : Joint;
  getIndexInJoint : nat;
  getChildBodyNode : BodyNode
}.

Record Skeleton : Type := mkSkeleton {
  getName : string;
  getDofs : list DegreeOfFreedom
}.

Definition getNumDofs (skel : Skeleton) : nat := length (getDofs skel).
Definition getDof (skel : Skeleton) (i : nat) : option DegreeOfFreedom :=
  getDofs skel !! i.

(** The [while (true)] loop shared by both overloads of [isParent]: follow
    the parent joints from [nodeParentJoint] until [dofJoint] or the root.
    The second null test of the source reads a body node's parent joint,
    which a [BodyNode] always has. *)
Fixpoint isParent_walk (dofJoint nodeParentJoint : Joint) {struct nodeParentJoint} : bool :=
  if Joint_ptr_eqb nodeParentJoint dofJoint then true
  else
    match nodeParentJoint with
    | mkJoint _ _ _ _ None => false
    | mkJoint _ _ _ _ (Some (mkBodyNode next)) => isParent_walk dofJoint next
    end.

(* the joints on the way from [j] up to the root, [j] first *)
Fixpoint jointsToRoot (j : Joint) : list Joint :=
  match j with
  | mkJoint _ _ _ _ None => [j]
  | mkJoint _ _ _ _ (Some (mkBodyNode next)) => j :: jointsToRoot next
  end.

(* isParent(const DegreeOfFreedom* dof, const BodyNode* node) *)
Definition isParent (dof : DegreeOfFreedom) (node : BodyNode) : bool :=
  let dofJoint := getJoint dof in
  let nodeParentJoint := getParentJoint node in
  if negb (String.eqb (getSkeletonName dofJoint) (getSkeletonName nodeParentJoint))
     || negb (Nat.eqb (getTreeIndex dofJoint) (getTreeIndex nodeParentJoint))
  then false
  else if Nat.ltb (getIndexInTree0 nodeParentJoint) (getIndexInTree0 dofJoint)
  then false
  else isParent_walk dofJoint nodeParentJoint.

(* isParent(const DegreeOfFreedom* parent, const DegreeOfFreedom* child) *)
Definition isParentDof (parent child : DegreeOfFreedom) : bool :=
  let parentJoint := getJoint parent in
  let childJoint := getJoint child in
  if Joint_ptr_eqb parentJoint childJoint
  then negb (Nat.eqb (getIndexInJoint parent) (getIndexInJoint child))
  else if negb (String.eqb (getSkeletonName parentJoint) (getSkeletonName childJoint))
          || negb (Nat.eqb (getTreeIndex parentJoint) (getTreeIndex childJoint))
  then false
  else if Nat.ltb (getIndexInTree0 childJoint) (getIndexInTree0 parentJoint)
  then false
  else isParent_walk parentJoint childJoint.

(** ** Contacts and constraints *)

Section ContactData.
Context {D : Type}.

(* collision::Contact, the fields this file reads *)
Record Contact : Type := mkContact {
  point : Vector3d D;
  normal : Vector3d D;
  type : collision.ContactType;
  edgeAFixedPoint : Vector3d D;
  edgeADir : Vector3d D;
  edgeBFixedPoint : Vector3d D;
  edgeBDir : Vector3d D
}.

Record ContactConstraint : Type := mkContactConstraint {
  getContact : Contact;
  getBodyNodeA : BodyNode;
  getBodyNodeB : BodyNode;
  contactSkeletons : list Skeleton
}.

(* constraint::ConstraintBase, told apart by isContactConstraint() *)
Inductive ConstraintBase : Type :=
  | IsContactConstraint (cc : ContactConstraint)
  | OtherConstraint (skeletons : list Skeleton).

Definition isContactConstraint (k : ConstraintBase) : bool :=
  match k with IsContactConstraint _ => true | OtherConstraint _ => false end.

Definition getSkeletons (k : ConstraintBase) : list Skeleton :=
  match k with
  | IsContactConstraint cc => contactSkeletons cc
  | OtherConstraint skels => skels
  end.

Record DifferentiableContactConstraint : Type := mkDifferentiableContactConstraint {
  mConstraint : ConstraintBase;
  mIndex : Z;
  mSkeletons : list string
}.

(** The constructor sets [mContactConstraint] (a cast of [mConstraint]) and
    [mContact] (a copy of its contact) exactly when the constraint is a
    contact constraint, and leaves them null otherwise: they are functions
    of [mConstraint]. *)
Definition mContactConstraint (c : DifferentiableContactConstraint) : option ContactConstraint :=
  match mConstraint c with
  | IsContactConstraint cc => Some cc
  | OtherConstraint _ => None
  end.

Definition mContact (c : DifferentiableContactConstraint) : option Contact :=
  getContact <$> mContactConstraint c.

(* DifferentiableContactConstraint(constraint, index) *)
Definition newDifferentiableContactConstraint
    (constraint : ConstraintBase) (index : Z) : DifferentiableContactConstraint :=
  {| mConstraint := constraint;
     mIndex := index;
     mSkeletons := map getName (getSkeletons constraint) |}.

End ContactData.

Arguments Contact D : clear implicits.
Arguments ContactConstraint D : clear implicits.
Arguments ConstraintBase D : clear implicits.
Arguments DifferentiableContactConstraint D : clear implicits.

(** ** The collaborators

    What the file calls and does not define: the kinematics oracle,
    [dart::math], the ODE tangent basis of the contact constraint, and the
    contents of freshly allocated storage. *)

Class Collaborators (D : Type) : Type := {
  Isometry3d : Type;
  (* childNode->getWorldTransform() *)
  getWorldTransform : BodyNode -> Isometry3d;
  (* joint->getRelativeJacobian().col(i) *)
  getRelativeJacobian : Joint -> nat -> Vector6d D;
  AdT : Isometry3d -> Vector6d D -> Vector6d D;
  ad : Vector6d D -> Vector6d D -> Vector6d D;
  gradientWrtTheta : Vector6d D -> Vector3d D -> D -> Vector3d D;
  gradientWrtThetaPureRotation : Vector3d D -> Vector3d D -> D -> Vector3d D;
  getContactPointGradient :
    Vector3d D -> Vector3d D -> Vector3d D -> Vector3d D ->
    Vector3d D -> Vector3d D -> Vector3d D -> Vector3d D -> Vector3d D;
  (* contactConstraint->getTangentBasisMatrixODE(n).col(i) *)
  getTangentBasisMatrixODE : ContactConstraint D -> Vector3d D -> Z -> Vector3d D;
  (* contactConstraint->getTangentBasisMatrixODEGradient(n, g).col(i) *)
  getTangentBasisMatrixODEGradient :
    ContactConstraint D -> Vector3d D -> Vector3d D -> Z -> Vector3d D;
  (* what a freshly allocated Eigen::VectorXd holds at each index *)
  uninitialized : nat -> D
}.

Section Constraint.
Context {D : Type} `{Scalar D} `{Collaborators D}.

(** *** Queries *)

Definition getContactWorldPosition (c : DifferentiableContactConstraint D) : Vector3d D :=
  match mContact c with
  | None => Zero3                  (* !mConstraint->isContactConstraint() *)
  | Some contact => point contact
  end.

Definition getContactWorldNormal (c : DifferentiableContactConstraint D) : Vector3d D :=
  match mContact c with
  | None => Zero3                  (* !mConstraint->isContactConstraint() *)
  | Some contact => normal contact
  end.

Definition getContactWorldForceDirection (c : DifferentiableContactConstraint D) : Vector3d D :=
  match mContactConstraint c with
  | None => Zero3                  (* !mConstraint->isContactConstraint() *)
  | Some cc =>
      if Z.eqb (mIndex c) 0 then normal (getContact cc)
      else getTangentBasisMatrixODE cc (normal (getContact cc)) (mIndex c - 1)
  end.

Definition getWorldForce (c : DifferentiableContactConstraint D) : Vector6d D :=
  {| head3 := cross (getContactWorldPosition c) (getContactWorldForceDirection c);
     tail3 := getContactWorldForceDirection c |}.

Definition getContactType (c : DifferentiableContactConstraint D) : collision.ContactType :=
  match mContact c with
  | None => collision.UNSUPPORTED  (* !mConstraint->isContactConstraint() *)
  | Some contact => type contact
  end.

(** [getDofContactType] reads [mContactConstraint] without a test. *)
Definition getDofContactType (c : DifferentiableContactConstraint D)
    (dof : DegreeOfFreedom) : option DofContactType :=
  cc ← mContactConstraint c;
  let isParentA := isParent dof (getBodyNodeA cc) in
  let isParentB := isParent dof (getBodyNodeB cc) in
  Some
    (if isParentA && isParentB then
       match getContactType c with
       | collision.FACE_VERTEX | collision.VERTEX_FACE => VERTEX_FACE_SELF_COLLISION
       | collision.EDGE_EDGE => EDGE_EDGE_SELF_COLLISION
       | _ => UNSUPPORTED
       end
     else if negb isParentA && negb isParentB then NONE
     else if isParentA then
       match getContactType c with
       | collision.FACE_VERTEX => FACE
       | collision.VERTEX_FACE => VERTEX
       | collision.EDGE_EDGE => EDGE_B
       | _ => UNSUPPORTED
       end
     else if isParentB then
       match getContactType c with
       | collision.FACE_VERTEX => VERTEX
       | collision.VERTEX_FACE => FACE
       | collision.EDGE_EDGE => EDGE_A
       | _ => UNSUPPORTED
       end
     else NONE).

Definition getWorldScrewAxis (dof : DegreeOfFreedom) : Vector6d D :=
  let jointIndex := getIndexInJoint dof in
  let relativeJac := getRelativeJacobian (getJoint dof) in
  let childNode := getChildBodyNode dof in
  let transform := getWorldTransform childNode in
  let localTwist := relativeJac jointIndex in
  AdT transform localTwist.

Definition getForceMultiple (c : DifferentiableContactConstraint D)
    (dof : DegreeOfFreedom) : D :=
  match mContactConstraint c with
  | None => s1                     (* !mConstraint->isContactConstraint() *)
  | Some cc =>
      let isParentA := isParent dof (getBodyNodeA cc) in
      let isParentB := isParent dof (getBodyNodeB cc) in
      if isParentA && isParentB then s0
      else if isParentA then s1
      else if isParentB then sopp s1
      else s0
  end.

(* one turn of the loop of getConstraintForces(skel); getDof is null only at
   or beyond getNumDofs, which the loop does not reach *)
Definition getConstraintForces_step (c : DifferentiableContactConstraint D)
    (skel : Skeleton) (worldForce : Vector6d D) (taus : list D) (i : nat) : list D :=
  match getDof skel i with
  | None => taus
  | Some dof =>
      let multiple := getForceMultiple c dof in
      if seqb multiple s0 then <[i := s0]> taus
      else
        let worldTwist := getWorldScrewAxis dof in
        <[i := smul (dot worldTwist worldForce) multiple]> taus
  end.

(* getConstraintForces(std::shared_ptr<dynamics::Skeleton> skel) *)
Definition getConstraintForces (c : DifferentiableContactConstraint D)
    (skel : Skeleton) : list D :=
  if negb (existsb (String.eqb (getName skel)) (mSkeletons c))
  then replicate (getNumDofs skel) s0
  else
    let worldForce := getWorldForce c in
    let taus := map uninitialized (seq 0 (getNumDofs skel)) in
    fold_left (getConstraintForces_step c skel worldForce)
              (seq 0 (getNumDofs skel)) taus.

(** *** Gradients

    A function whose control reaches its end without a [return] has no
    result ([None]). *)

Definition getContactPositionGradient (c : DifferentiableContactConstraint D)
    (dof : DegreeOfFreedom) : option (Vector3d D) :=
  let contactPos := getContactWorldPosition c in
  type ← getDofContactType c dof;
  if type ==? FACE then Some Zero3
  else if (type ==? VERTEX) || (type ==? VERTEX_FACE_SELF_COLLISION)
          || (type ==? EDGE_EDGE_SELF_COLLISION) || (type ==? EDGE_A)
          || (type ==? EDGE_B)
  then
    let jointIndex := getIndexInJoint dof in
    let childNode := getChildBodyNode dof in
    let worldTwist :=
      AdT (getWorldTransform childNode)
          (getRelativeJacobian (getJoint dof) jointIndex) in
    if (type ==? VERTEX) || (type ==? VERTEX_FACE_SELF_COLLISION)
       || (type ==? EDGE_EDGE_SELF_COLLISION)
    then Some (gradientWrtTheta worldTwist contactPos s0)
    else if type ==? EDGE_A then
      contact ← mContact c;
      let edgeAPosGradient :=
        gradientWrtTheta worldTwist (edgeAFixedPoint contact) s0 in
      let edgeADirGradient :=
        gradientWrtThetaPureRotation (head3 worldTwist) (edgeADir contact) s0 in
      Some (getContactPointGradient
              (edgeAFixedPoint contact) edgeAPosGradient
              (edgeADir contact) edgeADirGradient
              (edgeBFixedPoint contact) Zero3
              (edgeBDir contact) Zero3)
    else if type ==? EDGE_B then
      contact ← mContact c;
      let edgeBPosGradient :=
        gradientWrtTheta worldTwist (edgeBFixedPoint contact) s0 in
      let edgeBDirGradient :=
        gradientWrtThetaPureRotation (head3 worldTwist) (edgeBDir contact) s0 in
      Some (getContactPointGradient
              (edgeAFixedPoint contact) Zero3
              (edgeADir contact) Zero3
              (edgeBFixedPoint contact) edgeBPosGradient
              (edgeBDir contact) edgeBDirGradient)
    else None
  else Some Zero3.

Definition getContactNormalGradient (c : DifferentiableContactConstraint D)
    (dof : DegreeOfFreedom) : option (Vector3d D) :=
  let normal := getContactWorldNormal c in
  type ← getDofContactType c dof;
  if type ==? VERTEX then Some Zero3
  else if (type ==? FACE) || (type ==? VERTEX_FACE_SELF_COLLISION)
          || (type ==? EDGE_A) || (type ==? EDGE_B)
          || (type ==? EDGE_EDGE_SELF_COLLISION)
  then
    let jointIndex := getIndexInJoint dof in
    let childNode := getChildBodyNode dof in
    let worldTwist :=
      AdT (getWorldTransform childNode)
          (getRelativeJacobian (getJoint dof) jointIndex) in
    if (type ==? FACE) || (type ==? VERTEX_FACE_SELF_COLLISION)
       || (type ==? EDGE_EDGE_SELF_COLLISION)
    then Some (gradientWrtThetaPureRotation (head3 worldTwist) normal s0)
    else if type ==? EDGE_A then
      contact ← mContact c;
      let edgeADirGradient :=
        gradientWrtThetaPureRotation (head3 worldTwist) (edgeADir contact) s0 in
      Some (cross edgeADirGradient (edgeBDir contact))
    else if type ==? EDGE_B then
      contact ← mContact c;
      let edgeBDirGradient :=
        gradientWrtThetaPureRotation (head3 worldTwist) (edgeBDir contact) s0 in
      Some (cross (edgeADir contact) edgeBDirGradient)
    else None
  else Some Zero3.

Definition getContactForceGradient (c : DifferentiableContactConstraint D)
    (dof : DegreeOfFreedom) : option (Vector3d D) :=
  type ← getDofContactType c dof;
  if type ==? VERTEX then Some Zero3
  else if (type ==? FACE) || (type ==? VERTEX_FACE_SELF_COLLISION)
          || (type ==? EDGE_A) || (type ==? EDGE_B)
          || (type ==? EDGE_EDGE_SELF_COLLISION)
  then
    let contactNormal := getContactWorldNormal c in
    normalGradient ← getContactNormalGradient c dof;
    if Z.eqb (mIndex c) 0 || sleb (squaredNorm normalGradient) s1em12
    then Some normalGradient
    else
      cc ← mContactConstraint c;
      Some (getTangentBasisMatrixODEGradient cc contactNormal normalGradient
              (mIndex c - 1))
  else Some Zero3.

Definition getContactWorldForceGradient (c : DifferentiableContactConstraint D)
    (dof : DegreeOfFreedom) : option (Vector6d D) :=
  let position := getContactWorldPosition c in
  let force := getContactWorldForceDirection c in
  forceGradient ← getContactForceGradient c dof;
  positionGradient ← getContactPositionGradient c dof;
  Some {| head3 := vadd (cross position forceGradient) (cross positionGradient force);
          tail3 := forceGradient |}.

Definition getScrewAxisGradient (screwDof rotateDof : DegreeOfFreedom) : Vector6d D :=
  if negb (isParentDof rotateDof screwDof) then Zero6
  else
    let axisWorldTwist := getWorldScrewAxis screwDof in
    let rotateWorldTwist := getWorldScrewAxis rotateDof in
    ad rotateWorldTwist axisWorldTwist.

(* getConstraintForce(dof) *)
Definition getConstraintForce (c : DifferentiableContactConstraint D)
    (dof : DegreeOfFreedom) : D :=
  let multiple := getForceMultiple c dof in
  let worldForce := getWorldForce c in
  let worldTwist := getWorldScrewAxis dof in
  smul (dot worldTwist worldForce) multiple.

Definition getConstraintForceDerivative (c : DifferentiableContactConstraint D)
    (dof wrt : DegreeOfFreedom) : option D :=
  let multiple := getForceMultiple c dof in
  let worldForce := getWorldForce c in
  gradientOfWorldForce ← getContactWorldForceGradient c wrt;
  let gradientOfWorldTwist := getScrewAxisGradient dof wrt in
  let worldTwist := getWorldScrewAxis dof in
  Some (smul (sadd (dot worldTwist gradientOfWorldForce)
                   (dot gradientOfWorldTwist worldForce))
             multiple).

End Constraint.

(** ** DantzigBoxedLcpSolver *)

Module DantzigBoxedLcpSolver.

(* how a C++ call ends *)
Inductive Outcome (E A : Type) : Type :=
  | Returned (a : A)
  | Thrown (e : E).
Arguments Returned {E A} a.
Arguments Thrown {E A} e.

(* the arrays the solver works on in place *)
Record Buffers (D : Type) : Type := mkBuffers {
  A : list D;
  x : list D;
  b : list D;
  lo : list D;
  hi : list D;
  findex : list Z
}.

(** [dSolveLCP(n, A, x, b, outer_w, nub, lo, hi, findex, earlyTermination)]
    of [dart/external/odelcpsolver/lcp.h]: it leaves the arrays in some
    state and either returns a flag or throws. *)
Class LcpRoutine (D : Type) : Type := {
  Exception : Type;
  dSolveLCP : Z -> Buffers D -> option (list D) -> Z -> bool ->
              Buffers D * Outcome Exception bool
}.

Section Solve.
Context {D : Type} `{LcpRoutine D}.

(* solve(n, A, x, b, nub, lo, hi, findex, earlyTermination): nub is unnamed
   and unused, outer_w is nullptr *)
Definition solve (n : Z) (buffers : Buffers D) (nub : Z)
    (earlyTermination : bool) : Buffers D * Outcome Exception bool :=
  match dSolveLCP n buffers None 0 earlyTermination with
  | (after, Returned r) => (after, Returned r)
  | (after, Thrown _) => (after, Returned false)
  end.

End Solve.
End DantzigBoxedLcpSolver.

(** ** A small world to evaluate the model on

    Skeleton "arm": shoulder joint, upper arm, elbow joint, hand.
    Skeleton "box": one root joint and one body.  Every joint is a revolute
    about the world z axis, every body sits at the identity transform, and
    the [dart::math] oracles are their values at [theta = 0]. *)

Module Scene.
Section World.
Context {D : Type} `{Scalar D}.

Definition shoulderJoint : Joint := mkJoint 1 "arm" 0 0 None.
Definition upperArm : BodyNode := mkBodyNode shoulderJoint.
Definition elbowJoint : Joint := mkJoint 2 "arm" 0 1 (Some upperArm).
Definition hand : BodyNode := mkBodyNode elbowJoint.
Definition boxJoint : Joint := mkJoint 3 "box" 0 0 None.
Definition box : BodyNode := mkBodyNode boxJoint.

Definition shoulder : DegreeOfFreedom := mkDof shoulderJoint 0 upperArm.
Definition elbow : DegreeOfFreedom := mkDof elbowJoint 0 hand.
Definition boxDof : DegreeOfFreedom := mkDof boxJoint 0 box.

Definition arm : Skeleton := mkSkeleton "arm" [shoulder; elbow].
Definition boxSkel : Skeleton := mkSkeleton "box" [boxDof].
Definition loneSkel : Skeleton := mkSkeleton "lone" [boxDof].

(* a contact at (1,0,0) with the given type and normal; edge A runs along x,
   edge B along y *)
Definition contactOf (ty : collision.ContactType) (n : Vector3d D) : Contact D :=
  {| point := V3 s1 s0 s0;
     normal := n;
     type := ty;
     edgeAFixedPoint := V3 s1 s0 s0;
     edgeADir := V3 s1 s0 s0;
     edgeBFixedPoint := V3 s1 s0 s0;
     edgeBDir := V3 s0 s1 s0 |}.

Definition contactConstraintOf (ty : collision.ContactType) (n : Vector3d D)
    (bodyA bodyB : BodyNode) : ContactConstraint D :=
  {| getContact := contactOf ty n;
     getBodyNodeA := bodyA;
     getBodyNodeB := bodyB;
     contactSkeletons := [arm; boxSkel] |}.

Definition up : Vector3d D := V3 s0 s0 s1.

#[export] Instance collaborators : Collaborators D := {|
  Isometry3d := unit;
  getWorldTransform := fun _ => tt;
  getRelativeJacobian := fun _ _ => V6 up Zero3;
  AdT := fun _ v => v;
  ad := fun a b =>
    V6 (cross (head3 a) (head3 b))
       (vadd (cross (head3 a) (tail3 b)) (cross (tail3 a) (head3 b)));
  gradientWrtTheta := fun S p _ => vadd (cross (head3 S) p) (tail3 S);
  gradientWrtThetaPureRotation := fun w p _ => cross w p;
  getContactPointGradient := fun _ da _ _ _ db _ _ => vadd da db;
  getTangentBasisMatrixODE := fun _ n _ => cross n (V3 s1 s0 s0);
  getTangentBasisMatrixODEGradient := fun _ _ g _ => cross g (V3 s1 s0 s0);
  uninitialized := fun _ => s1
|}.

(* hand against box, seen from row [index] *)
Definition handOnBox (ty : collision.ContactType) (n : Vector3d D) (index : Z)
    : DifferentiableContactConstraint D :=
  newDifferentiableContactConstraint
    (IsContactConstraint (contactConstraintOf ty n hand box)) index.

(* upper arm against box: the elbow is below both bodies *)
Definition upperArmOnBox (ty : collision.ContactType) (n : Vector3d D) (index : Z)
    : DifferentiableContactConstraint D :=
  newDifferentiableContactConstraint
    (IsContactConstraint (contactConstraintOf ty n upperArm box)) index.

(* hand against upper arm: a self collision of the arm *)
Definition handOnUpperArm (ty : collision.ContactType) (n : Vector3d D) (index : Z)
    : DifferentiableContactConstraint D :=
  newDifferentiableContactConstraint
    (IsContactConstraint (contactConstraintOf ty n hand upperArm)) index.

(* a constraint that is not a contact, on the arm *)
Definition jointLimit (index : Z) : DifferentiableContactConstraint D :=
  newDifferentiableContactConstraint (OtherConstraint [arm]) index.

End World.

(* a solver routine that always throws, and one that reports success *)
#[export] Instance throwingRoutine : DantzigBoxedLcpSolver.LcpRoutine Z := {|
  DantzigBoxedLcpSolver.Exception := string;
  DantzigBoxedLcpSolver.dSolveLCP := fun _ buffers _ _ _ =>
    (buffers, DantzigBoxedLcpSolver.Thrown "singular"%string)
|}.

End Scene.

(** ** Vectors and matrices over skeletons and the world *)

(** Modelled from the spec: [simulation::World] is declared in
    [dart/simulation/World.hpp]; the data model makes it an ordered collection
    of skeletons whose degrees of freedom are those of the skeletons,
    concatenated in registration order. *)
Module simulation.
Record World : Type := mkWorld { getSkeletonList : list Skeleton }.

Definition getNumSkeletons (world : World) : nat :=
  length (getSkeletonList world).
Definition getSkeleton (world : World) (i : nat) : option Skeleton :=
  getSkeletonList world !! i.
Definition getDofs (world : World) : list DegreeOfFreedom :=
  concat (map getDofs (getSkeletonList world)).
Definition getNumDofs (world : World) : nat := length (getDofs world).
End simulation.

(** What negation needs for the exchange of the two bodies. *)
Class ScalarOppLaws (D : Type) `{Scalar D} : Prop := {
  sopp_s0 : sopp (s0 : D) = s0;
  sopp_sopp_s1 : sopp (sopp (s1 : D)) = s1
}.

(* the contact constraint with its two bodies exchanged *)
Definition swapBodies {D : Type} (cc : ContactConstraint D) : ContactConstraint D :=
  {| getContact := getContact cc;
     getBodyNodeA := getBodyNodeB cc;
     getBodyNodeB := getBodyNodeA cc;
     contactSkeletons := contactSkeletons cc |}.

(* vertex and face, edge A and edge B exchanged *)
Definition exchangeSides (t : DofContactType) : DofContactType :=
  match t with
  | VERTEX => FACE
  | FACE => VERTEX
  | EDGE_A => EDGE_B
  | EDGE_B => EDGE_A
  | other => other
  end.

(* a counted loop whose body may have no result *)
Definition forM {S : Type} (indices : list nat) (body : S -> nat -> option S)
    (init : S) : option S :=
  fold_left (fun acc i => s ← acc; body s i) indices (Some init).

(* int i = 0; for (auto dof : dofs) { jac.col(i) = gradient(dof); i++; } *)
Definition fillColumns {V : Type} (gradient : DegreeOfFreedom -> option V)
    (dofs : list DegreeOfFreedom) (jac : list V) : option (list V) :=
  fst <$> fold_left
            (fun acc dof =>
               '(jac, i) ← acc;
               col ← gradient dof;
               Some (<[i := col]> jac, S i))
            dofs (Some (jac, 0%nat)).

(* EdgeData of DifferentiableContactConstraint.hpp *)
Module edges.
Record EdgeData (D : Type) : Type := mkEdgeData {
  edgeAPos : Vector3d D;
  edgeADir : Vector3d D;
  edgeBPos : Vector3d D;
  edgeBDir : Vector3d D
}.
Arguments mkEdgeData {D}.
Arguments edgeAPos {D}.
Arguments edgeADir {D}.
Arguments edgeBPos {D}.
Arguments edgeBDir {D}.
End edges.

Section Assembly.
Context {D : Type} `{Scalar D} `{Collaborators D}.

(* taus.segment(cursor, n) = v, for a segment inside taus and v of size n *)
Definition assignSegment {V : Type} (taus : list V) (cursor n : nat) (v : list V) : list V :=
  take cursor taus ++ take n v ++ drop (cursor + n) taus.

(* getConstraintForces(std::shared_ptr<simulation::World> world) *)
Definition getConstraintForcesOfWorld (c : DifferentiableContactConstraint D)
    (world : simulation.World) : list D :=
  let taus := map uninitialized (seq 0 (simulation.getNumDofs world)) in
  fst (fold_left
         (fun '(taus, cursor) i =>
            match simulation.getSkeleton world i with
            | None => (taus, cursor)
            | Some skel =>
                let dofs := getNumDofs skel in
                (assignSegment taus cursor dofs (getConstraintForces c skel),
                 (cursor + dofs)%nat)
            end)
         (seq 0 (simulation.getNumSkeletons world)) (taus, 0%nat)).

(** Matrices with a fixed number of rows ([math::LinearJacobian],
    [math::Jacobian]) are lists of columns; [Eigen::MatrixXd] is a list of
    rows. *)

(* getContactPositionJacobian(std::shared_ptr<dynamics::Skeleton> skel) *)
Definition getContactPositionJacobian (c : DifferentiableContactConstraint D)
    (skel : Skeleton) : option (list (Vector3d D)) :=
  let jac := replicate (getNumDofs skel) Zero3 in
  fillColumns (getContactPositionGradient c) (getDofs skel) jac.

(* getContactPositionJacobian(std::shared_ptr<simulation::World> world) *)
Definition getContactPositionJacobianOfWorld (c : DifferentiableContactConstraint D)
    (world : simulation.World) : option (list (Vector3d D)) :=
  let jac := replicate (simulation.getNumDofs world) Zero3 in
  fillColumns (getContactPositionGradient c) (simulation.getDofs world) jac.

(* getContactForceDirectionJacobian(std::shared_ptr<dynamics::Skeleton> skel) *)
Definition getContactForceDirectionJacobian (c : DifferentiableContactConstraint D)
    (skel : Skeleton) : option (list (Vector3d D)) :=
  let jac := replicate (getNumDofs skel) Zero3 in
  fillColumns (getContactForceGradient c) (getDofs skel) jac.

(* getContactForceDirectionJacobian(std::shared_ptr<simulation::World> world) *)
Definition getContactForceDirectionJacobianOfWorld (c : DifferentiableContactConstraint D)
    (world : simulation.World) : option (list (Vector3d D)) :=
  let jac := replicate (simulation.getNumDofs world) Zero3 in
  fillColumns (getContactForceGradient c) (simulation.getDofs world) jac.

(* a finished column of the force Jacobian *)
Definition forceColumn (pos dir posCol dirCol : Vector3d D) : Vector6d D :=
  V6 (vadd (cross pos dirCol) (cross posCol dir)) dirCol.

(* the two assignments shared by both overloads of getContactForceJacobian:
   the loop over the top three rows, then the block of the bottom three *)
Definition assembleForceJacobian (pos dir : Vector3d D)
    (posJac dirJac : list (Vector3d D)) (n : nat) : option (list (Vector6d D)) :=
  let jac := replicate n Zero6 in
  jac ← forM (seq 0 n)
        (fun jac i =>
           dirCol ← dirJac !! i;
           posCol ← posJac !! i;
           Some (alter (fun col => V6 (vadd (cross pos dirCol) (cross posCol dir))
                                      (tail3 col)) i jac))
        jac;
  Some (zip_with (fun col dirCol => V6 (head3 col) dirCol) jac dirJac).

(* getContactForceJacobian(std::shared_ptr<dynamics::Skeleton> skel) *)
Definition getContactForceJacobian (c : DifferentiableContactConstraint D)
    (skel : Skeleton) : option (list (Vector6d D)) :=
  let pos := getContactWorldPosition c in
  let dir := getContactWorldForceDirection c in
  posJac ← getContactPositionJacobian c skel;
  dirJac ← getContactForceDirectionJacobian c skel;
  assembleForceJacobian pos dir posJac dirJac (getNumDofs skel).

(* getContactForceJacobian(std::shared_ptr<simulation::World> world) *)
Definition getContactForceJacobianOfWorld (c : DifferentiableContactConstraint D)
    (world : simulation.World) : option (list (Vector6d D)) :=
  let pos := getContactWorldPosition c in
  let dir := getContactWorldForceDirection c in
  posJac ← getContactPositionJacobianOfWorld c world;
  dirJac ← getContactForceDirectionJacobianOfWorld c world;
  assembleForceJacobian pos dir posJac dirJac (simulation.getNumDofs world).

(* result(row, col) = value *)
Definition setEntry (result : list (list D)) (row col : nat) (value : D) : list (list D) :=
  alter (fun r => <[col := value]> r) row result.

(* the loop over the columns of one row, shared by the overloads of
   getConstraintForcesJacobian *)
Definition fillRow (c : DifferentiableContactConstraint D)
    (forceJac : list (Vector6d D)) (force : Vector6d D)
    (rowDof : DegreeOfFreedom) (wrtDofs : list DegreeOfFreedom)
    (row : nat) (result : list (list D)) : option (list (list D)) :=
  let axis := getWorldScrewAxis rowDof in
  forM (seq 0 (length wrtDofs))
    (fun result col =>
       wrtDof ← wrtDofs !! col;
       let screwAxisGradient := getScrewAxisGradient rowDof wrtDof in
       forceGradient ← forceJac !! col;
       let multiple := getForceMultiple c rowDof in
       Some (setEntry result row col
               (smul multiple
                  (sadd (dot screwAxisGradient force) (dot axis forceGradient)))))
    result.

(* the value stored at (row, col), given column col of the force Jacobian *)
Definition forcesJacobianEntry (c : DifferentiableContactConstraint D)
    (force : Vector6d D) (rowDof wrtDof : DegreeOfFreedom)
    (forceGradient : Vector6d D) : D :=
  smul (getForceMultiple c rowDof)
       (sadd (dot (getScrewAxisGradient rowDof wrtDof) force)
             (dot (getWorldScrewAxis rowDof) forceGradient)).

(* getConstraintForcesJacobian(skel, wrt) *)
Definition getConstraintForcesJacobian (c : DifferentiableContactConstraint D)
    (skel wrt : Skeleton) : option (list (list D)) :=
  forceJac ← getContactForceJacobian c wrt;
  let force := getWorldForce c in
  let result := replicate (getNumDofs skel) (replicate (getNumDofs wrt) s0) in
  forM (seq 0 (getNumDofs skel))
    (fun result row =>
       rowDof ← getDof skel row;
       fillRow c forceJac force rowDof (getDofs wrt) row result)
    result.

(* getConstraintForcesJacobian(std::shared_ptr<simulation::World> world) *)
Definition getConstraintForcesJacobianOfWorld (c : DifferentiableContactConstraint D)
    (world : simulation.World) : option (list (list D)) :=
  let dim := simulation.getNumDofs world in
  forceJac ← getContactForceJacobianOfWorld c world;
  let force := getWorldForce c in
  let result := replicate dim (replicate dim s0) in
  let dofs := simulation.getDofs world in
  forM (seq 0 dim)
    (fun result row =>
       rowDof ← dofs !! row;
       fillRow c forceJac force rowDof dofs row result)
    result.

(* getConstraintForcesJacobian(std::vector<skeleton> skels, skeleton wrt) *)
Definition getConstraintForcesJacobianOfSkeletons
    (c : DifferentiableContactConstraint D)
    (skels : list Skeleton) (wrt : Skeleton) : option (list (list D)) :=
  forceJac ← getContactForceJacobian c wrt;
  let force := getWorldForce c in
  let numRows := fold_left (fun n skel => (n + getNumDofs skel)%nat) skels 0%nat in
  let result := replicate numRows (replicate (getNumDofs wrt) s0) in
  fst <$> fold_left
            (fun acc skel =>
               st ← acc;
               forM (seq 0 (getNumDofs skel))
                 (fun '(result, row) i =>
                    rowDof ← getDof skel i;
                    result ← fillRow c forceJac force rowDof (getDofs wrt)
                               row result;
                    Some (result, S row))
                 st)
            skels (Some (result, 0%nat)).

(* result.block(0, cursor, rows, n) = block, over all the rows of result *)
Definition assignColumns (result : list (list D)) (cursor n : nat)
    (block : list (list D)) : list (list D) :=
  zip_with (fun resultRow blockRow => assignSegment resultRow cursor n blockRow)
           result block.

(* getConstraintForcesJacobian(std::vector<skeleton> skels) *)
Definition getConstraintForcesJacobianOfAll
    (c : DifferentiableContactConstraint D)
    (skels : list Skeleton) : option (list (list D)) :=
  let dofs := fold_left (fun n skel => (n + getNumDofs skel)%nat) skels 0%nat in
  let result := replicate dofs (replicate dofs s0) in
  fst <$> fold_left
            (fun acc skel =>
               '(result, cursor) ← acc;
               block ← getConstraintForcesJacobianOfSkeletons c skels skel;
               Some (assignColumns result cursor (getNumDofs skel) block,
                     (cursor + getNumDofs skel)%nat))
            skels (Some (result, 0%nat)).

(* the entry of the Jacobian of the constraint forces for two degrees of
   freedom, with the world force gradient read where it has a value *)
Definition forcesJacobianValue (c : DifferentiableContactConstraint D)
    (rowDof wrtDof : DegreeOfFreedom) : D :=
  forcesJacobianEntry c (getWorldForce c) rowDof wrtDof
    (default Zero6 (getContactWorldForceGradient c wrtDof)).

(* the table of these entries over two lists of degrees of freedom *)
Definition forcesJacobianTable (c : DifferentiableContactConstraint D)
    (rows cols : list DegreeOfFreedom) : list (list D) :=
  map (fun rowDof => map (forcesJacobianValue c rowDof) cols) rows.

(* getEdgeGradient(dof) *)
Definition getEdgeGradient (c : DifferentiableContactConstraint D)
    (dof : DegreeOfFreedom) : option (edges.EdgeData D) :=
  let jointIndex := getIndexInJoint dof in
  let childNode := getChildBodyNode dof in
  let worldTwist :=
    AdT (getWorldTransform childNode)
        (getRelativeJacobian (getJoint dof) jointIndex) in
  type ← getDofContactType c dof;
  if type ==? EDGE_A then
    contact ← mContact c;
    Some (edges.mkEdgeData
            (gradientWrtTheta worldTwist (edgeAFixedPoint contact) s0)
            (gradientWrtThetaPureRotation (head3 worldTwist) (edgeADir contact) s0)
            Zero3 Zero3)
  else if type ==? EDGE_B then
    contact ← mContact c;
    Some (edges.mkEdgeData
            Zero3 Zero3
            (gradientWrtTheta worldTwist (edgeBFixedPoint contact) s0)
            (gradientWrtThetaPureRotation (head3 worldTwist) (edgeBDir contact) s0))
  else if type ==? EDGE_EDGE_SELF_COLLISION then
    contact ← mContact c;
    Some (edges.mkEdgeData
            (gradientWrtTheta worldTwist (edgeAFixedPoint contact) s0)
            (gradientWrtThetaPureRotation (head3 worldTwist) (edgeADir contact) s0)
            (gradientWrtTheta worldTwist (edgeBFixedPoint contact) s0)
            (gradientWrtThetaPureRotation (head3 worldTwist) (edgeBDir contact) s0))
  else Some (edges.mkEdgeData Zero3 Zero3 Zero3 Zero3).

(* getEdges() *)
Definition getEdges (c : DifferentiableContactConstraint D) : edges.EdgeData D :=
  match getContactType c, mContact c with
  | collision.EDGE_EDGE, Some contact =>
      edges.mkEdgeData (edgeAFixedPoint contact) (edgeADir contact)
                       (edgeBFixedPoint contact) (edgeBDir contact)
  | _, _ => edges.mkEdgeData Zero3 Zero3 Zero3 Zero3
  end.

End Assembly.

(** ** The estimates under a perturbation

    [math::expMap], the action of an [Eigen::Isometry3d] on a vector, the
    removal of its translation and [math::getContactPoint] are further
    collaborators. *)

Class Perturbations (D : Type) `{Collaborators D} : Type := {
  expMap : Vector6d D -> Isometry3d;
  (* isometry * vector *)
  transform : Isometry3d -> Vector3d D -> Vector3d D;
  (* isometry.translation().setZero() *)
  withoutTranslation : Isometry3d -> Isometry3d;
  getContactPoint :
    Vector3d D -> Vector3d D -> Vector3d D -> Vector3d D -> Vector3d D
}.

(* the types for which getContactPositionGradient moves the contact point *)
Definition moves_position (t : DofContactType) : bool :=
  match t with
  | FACE | NONE | UNSUPPORTED => false
  | _ => true
  end.

Section Estimates.
Context {D : Type} `{Scalar D} `{Collaborators D} `{!Perturbations D}.

(* worldTwist * eps *)
Definition scale3 (v : Vector3d D) (eps : D) : Vector3d D :=
  V3 (smul (vx v) eps) (smul (vy v) eps) (smul (vz v) eps).
Definition scale6 (v : Vector6d D) (eps : D) : Vector6d D :=
  V6 (scale3 (head3 v) eps) (scale3 (tail3 v) eps).

(* getWorldScrewAxis(skel, dofIndex) *)
Definition getWorldScrewAxisAt (skel : Skeleton) (dofIndex : nat)
    : option (Vector6d D) :=
  dof ← getDof skel dofIndex;
  Some (getWorldScrewAxis dof).

(* estimatePerturbedContactPosition(skel, dofIndex, eps) *)
Definition estimatePerturbedContactPosition (c : DifferentiableContactConstraint D)
    (skel : Skeleton) (dofIndex : nat) (eps : D) : option (Vector3d D) :=
  let contactPos := getContactWorldPosition c in
  dof ← getDof skel dofIndex;
  type ← getDofContactType c dof;
  if (type ==? VERTEX) || (type ==? VERTEX_FACE_SELF_COLLISION)
     || (type ==? EDGE_EDGE_SELF_COLLISION)
  then
    worldTwist ← getWorldScrewAxisAt skel dofIndex;
    let rotation := expMap (scale6 worldTwist eps) in
    Some (transform rotation contactPos)
  else if type ==? FACE then Some contactPos
  else if type ==? EDGE_A then
    worldTwist ← getWorldScrewAxisAt skel dofIndex;
    let translation := expMap (scale6 worldTwist eps) in
    let rotation := withoutTranslation translation in
    contact ← mContact c;
    Some (getContactPoint
            (transform translation (edgeAFixedPoint contact))
            (transform rotation (edgeADir contact))
            (edgeBFixedPoint contact)
            (edgeBDir contact))
  else if type ==? EDGE_B then
    worldTwist ← getWorldScrewAxisAt skel dofIndex;
    let translation := expMap (scale6 worldTwist eps) in
    let rotation := withoutTranslation translation in
    contact ← mContact c;
    Some (getContactPoint
            (edgeAFixedPoint contact)
            (edgeADir contact)
            (transform translation (edgeBFixedPoint contact))
            (transform rotation (edgeBDir contact)))
  else Some contactPos.

(* estimatePerturbedContactNormal(skel, dofIndex, eps) *)
Definition estimatePerturbedContactNormal (c : DifferentiableContactConstraint D)
    (skel : Skeleton) (dofIndex : nat) (eps : D) : option (Vector3d D) :=
  let normal := getContactWorldNormal c in
  dof ← getDof skel dofIndex;
  type ← getDofContactType c dof;
  if type ==? VERTEX then Some normal
  else if (type ==? FACE) || (type ==? VERTEX_FACE_SELF_COLLISION)
          || (type ==? EDGE_A) || (type ==? EDGE_B)
          || (type ==? EDGE_EDGE_SELF_COLLISION)
  then
    worldTwist ← getWorldScrewAxisAt skel dofIndex;
    let rotation := withoutTranslation (expMap (scale6 worldTwist eps)) in
    if (type ==? FACE) || (type ==? VERTEX_FACE_SELF_COLLISION)
       || (type ==? EDGE_EDGE_SELF_COLLISION)
    then Some (transform rotation normal)
    else if type ==? EDGE_A then
      contact ← mContact c;
      Some (cross (transform rotation (edgeADir contact)) (edgeBDir contact))
    else if type ==? EDGE_B then
      contact ← mContact c;
      Some (cross (edgeADir contact) (transform rotation (edgeBDir contact)))
    else None
  else Some normal.

(* estimatePerturbedContactForceDirection(skel, dofIndex, eps) *)
Definition estimatePerturbedContactForceDirection
    (c : DifferentiableContactConstraint D)
    (skel : Skeleton) (dofIndex : nat) (eps : D) : option (Vector3d D) :=
  let forceDir := getContactWorldForceDirection c in
  dof ← getDof skel dofIndex;
  type ← getDofContactType c dof;
  if type ==? VERTEX then Some forceDir
  else if (type ==? FACE) || (type ==? VERTEX_FACE_SELF_COLLISION)
          || (type ==? EDGE_A) || (type ==? EDGE_B)
          || (type ==? EDGE_EDGE_SELF_COLLISION)
  then
    contactNormal ← estimatePerturbedContactNormal c skel dofIndex eps;
    if Z.eqb (mIndex c) 0 then Some contactNormal
    else
      cc ← mContactConstraint c;
      Some (getTangentBasisMatrixODE cc contactNormal (mIndex c - 1))
  else Some forceDir.

(* estimatePerturbedScrewAxis(axis, rotate, eps) *)
Definition estimatePerturbedScrewAxis (axis rotate : DegreeOfFreedom) (eps : D)
    : Vector6d D :=
  let axisWorldTwist := getWorldScrewAxis axis in
  if negb (isParentDof rotate axis) then axisWorldTwist
  else
    let rotateWorldTwist := getWorldScrewAxis rotate in
    let transform := expMap (scale6 rotateWorldTwist eps) in
    AdT transform axisWorldTwist.

End Estimates.

(* the scene's perturbations: every isometry is the identity *)
Module ScenePerturbations.
Section Identity.
Context {D : Type} `{Scalar D}.

#[export] Instance perturbations : @Perturbations D Scene.collaborators :=
  @Build_Perturbations D Scene.collaborators
    (fun _ => tt)
    (fun _ v => v)
    (fun T => T)
    (fun pointA _ _ _ => pointA).

(* a world of the arm and the box *)
Definition world : simulation.World :=
  simulation.mkWorld [Scene.arm; Scene.boxSkel].

End Identity.
End ScenePerturbations.

(* hand on box, vertex on the hand, row 0, in exact arithmetic *)
Module ExactScene.
Import RationalScalar.

Definition handBoxCC : ContactConstraint Qc :=
  Scene.contactConstraintOf collision.VERTEX_FACE Scene.up Scene.hand Scene.box.

Definition handBox : DifferentiableContactConstraint Qc :=
  Scene.handOnBox collision.VERTEX_FACE Scene.up 0.

End ExactScene.

(** * Properties *)

Import RationalScalar DoubleScalar Scene.

(** Exact rational arithmetic satisfies the laws. *)
#[global] Instance Qc_ScalarLaws : ScalarLaws Qc.
Proof.
  split; simpl; intros.
  - apply Qcplus_comm.
  - apply Qcmult_comm.
  - apply Qcplus_0_l.
  - apply Qcmult_0_l.
  - apply Qcplus_opp_r.
  - unfold Qc_eqb. rewrite Qeq_bool_iff. split; [apply Qc_is_canon | intros ->; reflexivity].
  - intro E. apply (f_equal this) in E. discriminate E.
  - intro E. apply (f_equal this) in E. discriminate E.
Qed.

(** ** The ancestor walk *)

(** The walk answers true exactly when the address of the joint of the
    degree of freedom is the address of a joint on the way from the start
    joint to the root. *)
Lemma isParent_walk_path (dofJoint start : Joint) :
  isParent_walk dofJoint start = true
  <-> exists j, In j (jointsToRoot start) /\ getAddress j = getAddress dofJoint.
Proof.
  revert start.
  fix IH 1. intros [a s t i [[next]|]].
  - change (jointsToRoot (mkJoint a s t i (Some (mkBodyNode next))))
      with (mkJoint a s t i (Some (mkBodyNode next)) :: jointsToRoot next).
    change (isParent_walk dofJoint (mkJoint a s t i (Some (mkBodyNode next))))
      with (if Nat.eqb a (getAddress dofJoint) then true
            else isParent_walk dofJoint next).
    destruct (Nat.eqb_spec a (getAddress dofJoint)) as [E|Hne].
    + split; [intros _ | reflexivity].
      eexists. split; [left; reflexivity | exact E].
    + rewrite IH. split.
      * intros [j [Hin Hj]]. exists j. split; [right; exact Hin | exact Hj].
      * intros [j [[<-|Hin] Hj]]; [contradiction | eauto].
  - simpl. unfold Joint_ptr_eqb. simpl.
    destruct (Nat.eqb_spec a (getAddress dofJoint)) as [E|Hne].
    + split; [intros _ | reflexivity].
      eexists. split; [left; reflexivity | exact E].
    + split; [discriminate | intros [j [[<-|[]] Hj]]; contradiction].
Qed.

(** In a skeleton whose joints carry consistent data (the joints above a
    joint belong to the same skeleton and tree and come no later in the
    tree) and distinct addresses, [isParent] holds exactly of the degrees of
    freedom whose joint lies between the body node and the root. *)
Lemma isParent_ancestor (dof : DegreeOfFreedom) (node : BodyNode) :
  let start := getParentJoint node in
  Forall (fun j => getSkeletonName j = getSkeletonName start /\
                   getTreeIndex j = getTreeIndex start /\
                   (getIndexInTree0 j <= getIndexInTree0 start)%nat)
         (jointsToRoot start) ->
  (forall j, In j (jointsToRoot start) ->
             getAddress j = getAddress (getJoint dof) -> j = getJoint dof) ->
  isParent dof node = true <-> In (getJoint dof) (jointsToRoot start).
Proof.
  cbv zeta. intros Hpath Hdistinct. rewrite List.Forall_forall in Hpath.
  unfold isParent. split.
  - destruct (_ || _); [discriminate |].
    destruct (Nat.ltb _ _); [discriminate |].
    rewrite isParent_walk_path. intros [j [Hin Hj]].
    rewrite <- (Hdistinct j Hin Hj). exact Hin.
  - intros Hin. destruct (Hpath _ Hin) as [Hname [Htree Hindex]].
    rewrite Hname, Htree, String.eqb_refl, Nat.eqb_refl. simpl.
    destruct (Nat.ltb_spec (getIndexInTree0 (getParentJoint node))
                           (getIndexInTree0 (getJoint dof))) as [Hlt|_]; [lia |].
    apply isParent_walk_path. eauto.
Qed.

(** A degree of freedom is never an ancestor of a body of another skeleton. *)
Lemma isParent_other_skeleton (dof : DegreeOfFreedom) (node : BodyNode) :
  getSkeletonName (getJoint dof) <> getSkeletonName (getParentJoint node) ->
  isParent dof node = false.
Proof.
  intros Hne. unfold isParent.
  destruct (String.eqb_spec (getSkeletonName (getJoint dof))
                            (getSkeletonName (getParentJoint node))) as [E|_].
  - contradiction.
  - reflexivity.
Qed.

Section ClassifierProperties.
Context {D : Type}.
Implicit Types (c : DifferentiableContactConstraint D) (cc : ContactConstraint D).
Implicit Types (dof : DegreeOfFreedom).

Lemma getContactType_contact c cc :
  mContactConstraint c = Some cc -> getContactType c = type (getContact cc).
Proof. unfold getContactType, mContact. intros ->. reflexivity. Qed.

Lemma getDofContactType_total c cc dof :
  mContactConstraint c = Some cc -> exists t, getDofContactType c dof = Some t.
Proof. unfold getDofContactType. intros ->. simpl. eauto. Qed.

Lemma getDofContactType_is_contact c dof t :
  getDofContactType c dof = Some t -> exists cc, mContactConstraint c = Some cc.
Proof.
  unfold getDofContactType. destruct (mContactConstraint c) as [cc|]; [eauto | discriminate].
Qed.

(** C1: for a contact of type VERTEX_FACE, FACE_VERTEX or EDGE_EDGE,
    [getDofContactType] follows the truth table: NONE when the degree of
    freedom is an ancestor of neither body; the self-collision type
    (vertex-face for VF and FV, edge-edge for EE) when it is an ancestor of
    both; VERTEX, FACE, EDGE_B for VF, FV, EE when it is an ancestor of A
    only; FACE, VERTEX, EDGE_A when it is an ancestor of B only. *)
Theorem getDofContactType_truth_table c cc dof :
  mContactConstraint c = Some cc ->
  let ancestorA := isParent dof (getBodyNodeA cc) in
  let ancestorB := isParent dof (getBodyNodeB cc) in
  let ty := type (getContact cc) in
  let result := getDofContactType c dof in
  (ancestorA = false -> ancestorB = false ->
     ty = collision.VERTEX_FACE \/ ty = collision.FACE_VERTEX \/ ty = collision.EDGE_EDGE ->
     result = Some NONE) /\
  (ancestorA = true -> ancestorB = true ->
     ty = collision.VERTEX_FACE \/ ty = collision.FACE_VERTEX ->
     result = Some VERTEX_FACE_SELF_COLLISION) /\
  (ancestorA = true -> ancestorB = true -> ty = collision.EDGE_EDGE ->
     result = Some EDGE_EDGE_SELF_COLLISION) /\
  (ancestorA = true -> ancestorB = false -> ty = collision.VERTEX_FACE ->
     result = Some VERTEX) /\
  (ancestorA = true -> ancestorB = false -> ty = collision.FACE_VERTEX ->
     result = Some FACE) /\
  (ancestorA = true -> ancestorB = false -> ty = collision.EDGE_EDGE ->
     result = Some EDGE_B) /\
  (ancestorA = false -> ancestorB = true -> ty = collision.VERTEX_FACE ->
     result = Some FACE) /\
  (ancestorA = false -> ancestorB = true -> ty = collision.FACE_VERTEX ->
     result = Some VERTEX) /\
  (ancestorA = false -> ancestorB = true -> ty = collision.EDGE_EDGE ->
     result = Some EDGE_A).
Proof.
  intros Hcc. cbv zeta.
  unfold getDofContactType. rewrite (getContactType_contact _ _ Hcc), Hcc. simpl.
  repeat split; intros -> ->; try (intros [->| [->| ->]]; reflexivity);
    try (intros [->| ->]; reflexivity); intros ->; reflexivity.
Qed.

(** C8, as the code has it: for a contact of type UNSUPPORTED,
    [getDofContactType] answers UNSUPPORTED when the degree of freedom is an
    ancestor of body A, of body B or of both, and NONE when it is an
    ancestor of neither. *)
Theorem getDofContactType_unsupported c cc dof :
  mContactConstraint c = Some cc ->
  type (getContact cc) = collision.UNSUPPORTED ->
  getDofContactType c dof =
  Some (if isParent dof (getBodyNodeA cc) || isParent dof (getBodyNodeB cc)
        then UNSUPPORTED else NONE).
Proof.
  intros Hcc Hty.
  unfold getDofContactType. rewrite (getContactType_contact _ _ Hcc), Hcc, Hty. simpl.
  destruct (isParent dof (getBodyNodeA cc)), (isParent dof (getBodyNodeB cc));
    reflexivity.
Qed.

End ClassifierProperties.

(** C1 at the hand-on-box contact: the shoulder carries body A only. *)
Lemma getDofContactType_truth_table_witness :
  getDofContactType
    (Scene.handOnBox (D:=Qc) collision.EDGE_EDGE Scene.up 0) Scene.shoulder
  = Some EDGE_B.
Proof.
  apply (getDofContactType_truth_table
           (Scene.handOnBox (D:=Qc) collision.EDGE_EDGE Scene.up 0)
           (Scene.contactConstraintOf collision.EDGE_EDGE Scene.up
              Scene.hand Scene.box)
           Scene.shoulder eq_refl); reflexivity.
Defined.

(** C8 at an UNSUPPORTED self collision of the arm: the shoulder carries
    both bodies. *)
Lemma getDofContactType_unsupported_witness :
  getDofContactType
    (Scene.handOnUpperArm (D:=Qc) collision.UNSUPPORTED Scene.up 0)
    Scene.shoulder
  = Some UNSUPPORTED.
Proof.
  apply (getDofContactType_unsupported
           (Scene.handOnUpperArm (D:=Qc) collision.UNSUPPORTED Scene.up 0)
           (Scene.contactConstraintOf collision.UNSUPPORTED Scene.up
              Scene.hand Scene.upperArm)
           Scene.shoulder eq_refl eq_refl).
Defined.

(** C8 as stated fails: the contact of upper arm and box has type
    UNSUPPORTED, the elbow is an ancestor of neither body, and the answer is
    NONE. *)
Lemma getDofContactType_unsupported_unrelated :
  let c := Scene.upperArmOnBox (D:=Qc) collision.UNSUPPORTED Scene.up 0 in
  getContactType c = collision.UNSUPPORTED /\
  isParent Scene.elbow Scene.upperArm = false /\
  isParent Scene.elbow Scene.box = false /\
  getDofContactType c Scene.elbow = Some NONE /\
  getDofContactType c Scene.elbow <> Some UNSUPPORTED.
Proof.
  cbv zeta. repeat split; try reflexivity. vm_compute. discriminate.
Qed.

(** ** Gradients by type of the degree of freedom *)

Section GradientProperties.
Context {D : Type} `{Scalar D} `{Collaborators D}.
Implicit Types (c : DifferentiableContactConstraint D) (cc : ContactConstraint D).
Implicit Types (dof : DegreeOfFreedom) (t : DofContactType).

Lemma mContact_contact c cc :
  mContactConstraint c = Some cc -> mContact c = Some (getContact cc).
Proof. unfold mContact. intros ->. reflexivity. Qed.

Ltac contact_of Ht :=
  let cc := fresh "cc" in
  let Hcc := fresh "Hcc" in
  destruct (getDofContactType_is_contact _ _ _ Ht) as [cc Hcc];
  exists (getContact cc); split; [exact (mContact_contact _ _ Hcc) |].

(** C2: the position gradient is zero for FACE, NONE and UNSUPPORTED; it is
    [gradientWrtTheta] of the world screw axis at the contact point for
    VERTEX and the two self-collision types; for EDGE_A (EDGE_B) it is
    [getContactPointGradient] at the fixed-point and direction gradients of
    edge A (edge B), with zero gradients for the other edge. *)
Theorem getContactPositionGradient_by_type c dof t :
  getDofContactType c dof = Some t ->
  let screw := getWorldScrewAxis dof in
  match t with
  | FACE | NONE | UNSUPPORTED =>
      getContactPositionGradient c dof = Some Zero3
  | VERTEX | VERTEX_FACE_SELF_COLLISION | EDGE_EDGE_SELF_COLLISION =>
      getContactPositionGradient c dof
      = Some (gradientWrtTheta screw (getContactWorldPosition c) s0)
  | EDGE_A =>
      exists contact, mContact c = Some contact /\
      getContactPositionGradient c dof
      = Some (getContactPointGradient
                (edgeAFixedPoint contact)
                (gradientWrtTheta screw (edgeAFixedPoint contact) s0)
                (edgeADir contact)
                (gradientWrtThetaPureRotation (head3 screw) (edgeADir contact) s0)
                (edgeBFixedPoint contact) Zero3
                (edgeBDir contact) Zero3)
  | EDGE_B =>
      exists contact, mContact c = Some contact /\
      getContactPositionGradient c dof
      = Some (getContactPointGradient
                (edgeAFixedPoint contact) Zero3
                (edgeADir contact) Zero3
                (edgeBFixedPoint contact)
                (gradientWrtTheta screw (edgeBFixedPoint contact) s0)
                (edgeBDir contact)
                (gradientWrtThetaPureRotation (head3 screw) (edgeBDir contact) s0))
  end.
Proof.
  intros Ht. cbv zeta. unfold getContactPositionGradient.
  destruct t; try (rewrite Ht; reflexivity);
    contact_of Ht; rewrite Ht; simpl;
    rewrite (mContact_contact _ _ Hcc); reflexivity.
Qed.

(** C3: the normal gradient is zero for VERTEX, NONE and UNSUPPORTED; it is
    [gradientWrtThetaPureRotation] of the angular part of the world screw
    axis at the normal for FACE and the two self-collision types; for EDGE_A
    it is the pure-rotation gradient of edge A's direction crossed with edge
    B's direction; for EDGE_B it is edge A's direction crossed with the
    pure-rotation gradient of edge B's direction. *)
Theorem getContactNormalGradient_by_type c dof t :
  getDofContactType c dof = Some t ->
  let rot := head3 (getWorldScrewAxis dof) in
  match t with
  | VERTEX | NONE | UNSUPPORTED =>
      getContactNormalGradient c dof = Some Zero3
  | FACE | VERTEX_FACE_SELF_COLLISION | EDGE_EDGE_SELF_COLLISION =>
      getContactNormalGradient c dof
      = Some (gradientWrtThetaPureRotation rot (getContactWorldNormal c) s0)
  | EDGE_A =>
      exists contact, mContact c = Some contact /\
      getContactNormalGradient c dof
      = Some (cross (gradientWrtThetaPureRotation rot (edgeADir contact) s0)
                    (edgeBDir contact))
  | EDGE_B =>
      exists contact, mContact c = Some contact /\
      getContactNormalGradient c dof
      = Some (cross (edgeADir contact)
                    (gradientWrtThetaPureRotation rot (edgeBDir contact) s0))
  end.
Proof.
  intros Ht. cbv zeta. unfold getContactNormalGradient.
  destruct t; try (rewrite Ht; reflexivity);
    contact_of Ht; rewrite Ht; simpl;
    rewrite (mContact_contact _ _ Hcc); reflexivity.
Qed.

Lemma getContactNormalGradient_total c dof t :
  getDofContactType c dof = Some t ->
  exists g, getContactNormalGradient c dof = Some g.
Proof.
  intros Ht.
  unfold getContactNormalGradient. rewrite Ht. simpl.
  destruct (getDofContactType_is_contact _ _ _ Ht) as [cc Hcc].
  rewrite (mContact_contact _ _ Hcc).
  destruct t; simpl; eauto.
Qed.

Lemma getContactPositionGradient_total c dof t :
  getDofContactType c dof = Some t ->
  exists g, getContactPositionGradient c dof = Some g.
Proof.
  intros Ht. unfold getContactPositionGradient. rewrite Ht. simpl.
  destruct (getDofContactType_is_contact _ _ _ Ht) as [cc Hcc].
  rewrite (mContact_contact _ _ Hcc).
  destruct t; simpl; eauto.
Qed.

(** C4, as the code has it: for a type other than VERTEX, NONE and
    UNSUPPORTED, the force-direction gradient is the normal gradient when
    the basis index is 0 or the squared norm of the normal gradient is at
    most 1e-12; otherwise it is column index-1 of
    [getTangentBasisMatrixODEGradient] at the normal and its gradient. *)
Theorem getContactForceGradient_by_index c dof t :
  getDofContactType c dof = Some t ->
  moves_normal t = true ->
  exists cc normalGradient,
    mContactConstraint c = Some cc /\
    getContactNormalGradient c dof = Some normalGradient /\
    getContactForceGradient c dof =
    Some (if Z.eqb (mIndex c) 0 then normalGradient
          else if sleb (squaredNorm normalGradient) s1em12 then normalGradient
          else getTangentBasisMatrixODEGradient cc (getContactWorldNormal c)
                 normalGradient (mIndex c - 1)).
Proof.
  intros Ht Hmoves.
  destruct (getDofContactType_is_contact _ _ _ Ht) as [cc Hcc].
  destruct (getContactNormalGradient_total _ _ _ Ht) as [g Hg].
  exists cc, g. split; [exact Hcc | split; [exact Hg |]].
  unfold getContactForceGradient. rewrite Ht. simpl.
  destruct t; try discriminate Hmoves; simpl; rewrite Hg; simpl;
    destruct (Z.eqb (mIndex c) 0); simpl;
    try reflexivity;
    destruct (sleb (squaredNorm g) s1em12); simpl;
    try reflexivity; rewrite Hcc; reflexivity.
Qed.

Lemma getContactForceGradient_total c dof t :
  getDofContactType c dof = Some t ->
  exists g, getContactForceGradient c dof = Some g.
Proof.
  intros Ht.
  destruct (getDofContactType_is_contact _ _ _ Ht) as [cc Hcc].
  destruct (getContactNormalGradient_total _ _ _ Ht) as [g Hg].
  unfold getContactForceGradient. rewrite Ht, Hg, Hcc. simpl.
  destruct t; simpl; eauto;
    destruct (Z.eqb (mIndex c) 0 || sleb (squaredNorm g) s1em12); eauto.
Qed.

Lemma getContactWorldForceGradient_total c dof cc :
  mContactConstraint c = Some cc ->
  exists g, getContactWorldForceGradient c dof = Some g.
Proof.
  intros Hcc.
  destruct (getDofContactType_total _ _ dof Hcc) as [t Ht].
  destruct (getContactForceGradient_total _ _ _ Ht) as [fg Hfg].
  destruct (getContactPositionGradient_total _ _ _ Ht) as [pg Hpg].
  unfold getContactWorldForceGradient. rewrite Hfg, Hpg. simpl. eauto.
Qed.

End GradientProperties.

(** ** Forces *)

Section ForceProperties.
Context {D : Type} `{Scalar D} `{!ScalarLaws D} `{Collaborators D}.
Implicit Types (c : DifferentiableContactConstraint D) (cc : ContactConstraint D).
Implicit Types (dof : DegreeOfFreedom) (skel : Skeleton).

Lemma smul_0_r (a : D) : smul a s0 = s0.
Proof. rewrite smul_comm. apply smul_0_l. Qed.

Lemma cross_Zero3_l (v : Vector3d D) : cross Zero3 v = Zero3.
Proof.
  unfold cross, Zero3; simpl. rewrite !smul_0_l, ssub_diag. reflexivity.
Qed.

Lemma dot_Zero6_r (v : Vector6d D) : dot v Zero6 = s0.
Proof.
  unfold dot, dot3, Zero6, Zero3; simpl. rewrite !smul_0_r, !sadd_0_l. reflexivity.
Qed.

(** C7: for a contact constraint, [getForceMultiple] is +1 when the degree
    of freedom is an ancestor of body A only, -1 when it is an ancestor of
    body B only, and 0 when it is an ancestor of both or of neither; it is
    nonzero exactly when it is an ancestor of one body and not the other. *)
Theorem getForceMultiple_xor c cc dof :
  mContactConstraint c = Some cc ->
  let ancestorA := isParent dof (getBodyNodeA cc) in
  let ancestorB := isParent dof (getBodyNodeB cc) in
  getForceMultiple c dof
  = (if ancestorA && negb ancestorB then s1
     else if negb ancestorA && ancestorB then sopp s1
     else s0)
  /\ (getForceMultiple c dof <> s0 <-> xorb ancestorA ancestorB = true).
Proof.
  intros Hcc. cbv zeta. unfold getForceMultiple. rewrite Hcc.
  destruct (isParent dof (getBodyNodeA cc)), (isParent dof (getBodyNodeB cc));
    simpl; (split; [reflexivity |]).
  - split; [intros E; now destruct E | discriminate].
  - split; [reflexivity | intros _; apply s1_neq_s0].
  - split; [reflexivity | intros _; apply sopp_s1_neq_s0].
  - split; [intros E; now destruct E | discriminate].
Qed.

(* the value the loop of getConstraintForces stores for [dof] *)
Lemma getConstraintForces_step_Some c skel worldForce taus i dof :
  getDof skel i = Some dof ->
  getConstraintForces_step c skel worldForce taus i
  = <[i := smul (getForceMultiple c dof) (dot (getWorldScrewAxis dof) worldForce)]> taus.
Proof.
  intros Hdof. unfold getConstraintForces_step. rewrite Hdof.
  destruct (seqb (getForceMultiple c dof) s0) eqn:E.
  - apply seqb_eq in E. rewrite E, smul_0_l. reflexivity.
  - rewrite smul_comm. reflexivity.
Qed.

Lemma getConstraintForces_loop c skel worldForce (taus : list D) (k : nat) :
  (k <= getNumDofs skel)%nat ->
  length taus = getNumDofs skel ->
  let out := fold_left (getConstraintForces_step c skel worldForce) (seq 0 k) taus in
  length out = getNumDofs skel /\
  forall i dof, (i < k)%nat -> getDof skel i = Some dof ->
    out !! i
    = Some (smul (getForceMultiple c dof) (dot (getWorldScrewAxis dof) worldForce)).
Proof.
  intros Hk Hlen. cbv zeta. induction k as [|k IH].
  - split; [exact Hlen | intros i dof Hi; inversion Hi].
  - rewrite seq_S, fold_left_app. simpl.
    destruct IH as [IHlen IHget]; [lia |].
    destruct (getDof skel k) as [dofk|] eqn:Hdofk.
    + rewrite (getConstraintForces_step_Some _ _ _ _ _ _ Hdofk).
      split; [rewrite length_insert; exact IHlen |].
      intros i dof Hi Hdof. destruct (decide (i = k)) as [->|Hne].
      * rewrite list_lookup_insert_eq by lia. congruence.
      * rewrite list_lookup_insert_ne by congruence. apply IHget; [lia | exact Hdof].
    + apply lookup_ge_None in Hdofk. unfold getNumDofs in Hk. lia.
Qed.

Lemma touches_In c skel :
  existsb (String.eqb (getName skel)) (mSkeletons c) = true
  <-> In (getName skel) (mSkeletons c).
Proof.
  rewrite existsb_exists. split.
  - intros [n [Hin E]]. apply String.eqb_eq in E. subst n. exact Hin.
  - intros Hin. exists (getName skel). split; [exact Hin | apply String.eqb_refl].
Qed.

Lemma getConstraintForces_untouched c skel :
  ~ In (getName skel) (mSkeletons c) ->
  getConstraintForces c skel = replicate (getNumDofs skel) s0.
Proof.
  intros Hout. unfold getConstraintForces.
  destruct (existsb (String.eqb (getName skel)) (mSkeletons c)) eqn:E.
  - apply touches_In in E. contradiction.
  - reflexivity.
Qed.

Lemma getConstraintForces_touched c skel :
  In (getName skel) (mSkeletons c) ->
  length (getConstraintForces c skel) = getNumDofs skel /\
  forall i dof, getDof skel i = Some dof ->
    getConstraintForces c skel !! i
    = Some (smul (getForceMultiple c dof)
                 (dot (getWorldScrewAxis dof) (getWorldForce c))).
Proof.
  intros Hin. apply touches_In in Hin.
  unfold getConstraintForces. rewrite Hin. simpl.
  destruct (getConstraintForces_loop c skel (getWorldForce c)
              (map uninitialized (seq 0 (getNumDofs skel))) (getNumDofs skel))
    as [Hlen Hget].
  - lia.
  - rewrite length_map, length_seq. reflexivity.
  - split; [exact Hlen |].
    intros i dof Hdof. apply Hget; [| exact Hdof].
    apply lookup_lt_Some in Hdof. exact Hdof.
Qed.

(** C5: [getConstraintForces] has one entry per degree of freedom of the
    skeleton.  For a skeleton the constraint touches, entry [i] is
    [multiple(d_i) * (worldScrewAxis(d_i) . worldForce)], with
    [worldForce = (point x forceDirection, forceDirection)]; for a skeleton
    it does not touch every entry is zero, and so is the entry of every
    degree of freedom whose multiple is zero. *)
Theorem getConstraintForces_entries c skel :
  length (getConstraintForces c skel) = getNumDofs skel /\
  getWorldForce c
  = V6 (cross (getContactWorldPosition c) (getContactWorldForceDirection c))
       (getContactWorldForceDirection c) /\
  (In (getName skel) (mSkeletons c) ->
   forall i dof, getDof skel i = Some dof ->
     getConstraintForces c skel !! i
     = Some (smul (getForceMultiple c dof)
                  (dot (getWorldScrewAxis dof) (getWorldForce c)))) /\
  (~ In (getName skel) (mSkeletons c) ->
   forall i, (i < getNumDofs skel)%nat ->
     getConstraintForces c skel !! i = Some s0) /\
  (forall i dof, getDof skel i = Some dof ->
     getForceMultiple c dof = s0 ->
     getConstraintForces c skel !! i = Some s0).
Proof.
  assert (Hout : ~ In (getName skel) (mSkeletons c) ->
                 forall i, (i < getNumDofs skel)%nat ->
                   getConstraintForces c skel !! i = Some s0).
  { intros Hnot i Hi. rewrite (getConstraintForces_untouched _ _ Hnot).
    apply lookup_replicate_2. exact Hi. }
  destruct (in_dec string_dec (getName skel) (mSkeletons c)) as [Hin|Hnot].
  - destruct (getConstraintForces_touched _ _ Hin) as [Hlen Hget].
    repeat split; [exact Hlen | exact (fun _ => Hget) | exact Hout |].
    intros i dof Hdof Hzero. rewrite (Hget _ _ Hdof), Hzero, smul_0_l. reflexivity.
  - repeat split; [| contradiction | exact Hout |].
    + rewrite (getConstraintForces_untouched _ _ Hnot). apply length_replicate.
    + intros i dof Hdof _. apply Hout; [exact Hnot |].
      apply lookup_lt_Some in Hdof. exact Hdof.
Qed.

(** C10: when the wrapped constraint is not a contact constraint, the
    contact position, normal and force direction are the zero vector, the
    world force is the zero 6-vector and every entry of
    [getConstraintForces] is zero, although [getForceMultiple] is 1.0 for
    every degree of freedom. *)
Theorem non_contact_constraint_forces c :
  isContactConstraint (mConstraint c) = false ->
  getContactWorldPosition c = Zero3 /\
  getContactWorldNormal c = Zero3 /\
  getContactWorldForceDirection c = Zero3 /\
  getWorldForce c = Zero6 /\
  (forall dof, getForceMultiple c dof = s1) /\
  (forall skel i, (i < getNumDofs skel)%nat ->
     getConstraintForces c skel !! i = Some s0).
Proof.
  intros Hnot.
  assert (Hcc : mContactConstraint c = None).
  { unfold mContactConstraint. destruct (mConstraint c); [discriminate | reflexivity]. }
  assert (Hpos : getContactWorldPosition c = Zero3).
  { unfold getContactWorldPosition, mContact. rewrite Hcc. reflexivity. }
  assert (Hdir : getContactWorldForceDirection c = Zero3).
  { unfold getContactWorldForceDirection. rewrite Hcc. reflexivity. }
  assert (Hforce : getWorldForce c = Zero6).
  { unfold getWorldForce. rewrite Hpos, Hdir, cross_Zero3_l. reflexivity. }
  repeat split; try assumption.
  - unfold getContactWorldNormal, mContact. rewrite Hcc. reflexivity.
  - intros dof. unfold getForceMultiple. rewrite Hcc. reflexivity.
  - intros skel i Hi.
    destruct (in_dec string_dec (getName skel) (mSkeletons c)) as [Hin|Hout].
    + destruct (lookup_lt_is_Some_2 (getDofs skel) i Hi) as [dof Hdof].
      destruct (getConstraintForces_touched _ _ Hin) as [_ Hget].
      rewrite (Hget _ _ Hdof), Hforce, dot_Zero6_r, smul_0_r. reflexivity.
    + rewrite (getConstraintForces_untouched _ _ Hout).
      apply lookup_replicate_2. exact Hi.
Qed.

(** C6: the gradient of the screw axis of [row] with respect to [wrt] is
    zero when [wrt] is not a parent of [row] and the bracket [ad] of the
    world screw axes of [wrt] and [row] otherwise; the derivative of the
    constraint force is
    [multiple(row) * (screwGrad(row,wrt) . F + screw(row) . Fgrad(wrt))]. *)
Theorem getConstraintForceDerivative_product_rule c row wrt :
  getScrewAxisGradient row wrt
  = (if isParentDof wrt row
     then ad (getWorldScrewAxis wrt) (getWorldScrewAxis row)
     else Zero6)
  /\ getConstraintForceDerivative c row wrt
     = (forceGradient ← getContactWorldForceGradient c wrt;
        Some (smul (getForceMultiple c row)
                (sadd (dot (getScrewAxisGradient row wrt) (getWorldForce c))
                      (dot (getWorldScrewAxis row) forceGradient))))
  /\ (isContactConstraint (mConstraint c) = true ->
      exists forceGradient,
        getContactWorldForceGradient c wrt = Some forceGradient).
Proof.
  split; [| split].
  - unfold getScrewAxisGradient. destruct (isParentDof wrt row); reflexivity.
  - unfold getConstraintForceDerivative.
    destruct (getContactWorldForceGradient c wrt) as [fg|]; simpl; [| reflexivity].
    rewrite smul_comm, sadd_comm. reflexivity.
  - intros Hc.
    destruct (mContactConstraint c) as [cc|] eqn:Hcc.
    + exact (getContactWorldForceGradient_total c wrt cc Hcc).
    + unfold mContactConstraint in Hcc. destruct (mConstraint c); discriminate.
Qed.

End ForceProperties.

(** ** The Dantzig solver wrapper *)

Section SolveProperties.
Import DantzigBoxedLcpSolver.
Context {D : Type} `{LcpRoutine D}.

(** C9: [solve] always returns; it returns false when [dSolveLCP] throws,
    whatever the exception, and the flag [dSolveLCP] returns otherwise. *)
Theorem solve_catches_all (n : Z) (buffers : Buffers D) (nub : Z)
    (earlyTermination : bool) :
  exists r : bool,
    snd (solve n buffers nub earlyTermination) = Returned r /\
    match snd (dSolveLCP n buffers None 0 earlyTermination) with
    | Returned flag => r = flag
    | Thrown _ => r = false
    end.
Proof.
  unfold solve.
  destruct (dSolveLCP n buffers None 0 earlyTermination) as [after [flag|e]]; simpl.
  - exists flag. split; reflexivity.
  - exists false. split; reflexivity.
Qed.

End SolveProperties.

Example solve_throwing :
  snd (DantzigBoxedLcpSolver.solve (D:=Z) 1
         (DantzigBoxedLcpSolver.mkBuffers Z [4] [0] [1] [0] [9] [-1]) 0 false)
  = DantzigBoxedLcpSolver.Returned false.
Proof. reflexivity. Qed.

(** ** The theorems at the example world *)

(** C2 at the hand-on-box contact, vertex on the hand: the shoulder moves
    the vertex. *)
Lemma getContactPositionGradient_by_type_witness :
  let c := Scene.handOnBox (D:=Qc) collision.VERTEX_FACE Scene.up 0 in
  getContactPositionGradient c Scene.shoulder
  = Some (gradientWrtTheta (getWorldScrewAxis Scene.shoulder)
            (getContactWorldPosition c) s0).
Proof.
  exact (getContactPositionGradient_by_type
           (Scene.handOnBox (D:=Qc) collision.VERTEX_FACE Scene.up 0)
           Scene.shoulder VERTEX eq_refl).
Defined.

(** C3 at the hand-on-box contact, face on the box: the box carries the
    normal. *)
Lemma getContactNormalGradient_by_type_witness :
  let c := Scene.handOnBox (D:=Qc) collision.VERTEX_FACE Scene.up 0 in
  getContactNormalGradient c Scene.boxDof
  = Some (gradientWrtThetaPureRotation
            (head3 (getWorldScrewAxis Scene.boxDof))
            (getContactWorldNormal c) s0).
Proof.
  exact (getContactNormalGradient_by_type
           (Scene.handOnBox (D:=Qc) collision.VERTEX_FACE Scene.up 0)
           Scene.boxDof FACE eq_refl).
Defined.

(** C4 at the first tangent row of the hand-on-box contact. *)
Lemma getContactForceGradient_by_index_witness :
  let c := Scene.handOnBox (D:=Qc) collision.VERTEX_FACE Scene.up 1 in
  exists cc normalGradient,
    mContactConstraint c = Some cc /\
    getContactNormalGradient c Scene.boxDof = Some normalGradient /\
    getContactForceGradient c Scene.boxDof =
    Some (if Z.eqb (mIndex c) 0 then normalGradient
          else if sleb (squaredNorm normalGradient) s1em12 then normalGradient
          else getTangentBasisMatrixODEGradient cc (getContactWorldNormal c)
                 normalGradient (mIndex c - 1)).
Proof.
  exact (getContactForceGradient_by_index
           (Scene.handOnBox (D:=Qc) collision.VERTEX_FACE Scene.up 1)
           Scene.boxDof FACE eq_refl eq_refl).
Defined.

(** C4 as stated fails, in binary64 arithmetic: on the first tangent row of
    the hand-on-box contact with the unit normal (2^-30, 0, 1) the box is of
    type FACE, the normal gradient (0, 2^-30, 0) has squared norm 2^-60,
    below 1e-12, and the force-direction gradient is that vector, not zero. *)
Lemma getContactForceGradient_short_circuit_nonzero :
  let n := V3 0x1p-30%float 0%float 1%float in
  let c := Scene.handOnBox (D:=float) collision.VERTEX_FACE n 1 in
  let g := V3 0%float 0x1p-30%float 0%float in
  squaredNorm n = 1%float /\
  getDofContactType c Scene.boxDof = Some FACE /\
  mIndex c <> 0 /\
  getContactNormalGradient c Scene.boxDof = Some g /\
  sltb (squaredNorm g) s1em12 = true /\
  getContactForceGradient c Scene.boxDof = Some g /\
  g <> Zero3.
Proof.
  cbv zeta. repeat split; try (vm_compute; reflexivity).
  - discriminate.
  - intro E. apply (f_equal (fun v => PrimFloat.eqb (vy v) 0%float)) in E.
    vm_compute in E. discriminate E.
Qed.

(** C7 at the hand-on-box contact: the box is an ancestor of body B only. *)
Lemma getForceMultiple_xor_witness :
  let c := Scene.handOnBox (D:=Qc) collision.VERTEX_FACE Scene.up 0 in
  getForceMultiple c Scene.boxDof = sopp s1 /\
  (getForceMultiple c Scene.boxDof <> s0 <-> true = true).
Proof.
  exact (getForceMultiple_xor
           (Scene.handOnBox (D:=Qc) collision.VERTEX_FACE Scene.up 0)
           (Scene.contactConstraintOf collision.VERTEX_FACE Scene.up
              Scene.hand Scene.box)
           Scene.boxDof eq_refl).
Defined.

(** C5 at the hand-on-box contact and the arm, which it touches. *)
Lemma getConstraintForces_entries_witness :
  let c := Scene.handOnBox (D:=Qc) collision.VERTEX_FACE Scene.up 0 in
  length (getConstraintForces c Scene.arm) = 2%nat /\
  getConstraintForces c Scene.arm !! 1%nat
  = Some (smul (getForceMultiple c Scene.elbow)
               (dot (getWorldScrewAxis Scene.elbow) (getWorldForce c))).
Proof.
  cbv zeta.
  pose proof (getConstraintForces_entries
                (Scene.handOnBox (D:=Qc) collision.VERTEX_FACE Scene.up 0)
                Scene.arm) as [Hlen [_ [Htouched _]]].
  split.
  - exact Hlen.
  - apply Htouched; [left; reflexivity | reflexivity].
Defined.

(** C10 at a joint-limit constraint on the arm. *)
Lemma non_contact_constraint_forces_witness :
  let c := Scene.jointLimit (D:=Qc) 0 in
  getWorldForce c = Zero6 /\
  getForceMultiple c Scene.elbow = s1 /\
  getConstraintForces c Scene.arm !! 1%nat = Some s0.
Proof.
  cbv zeta.
  pose proof (non_contact_constraint_forces (Scene.jointLimit (D:=Qc) 0) eq_refl)
    as [_ [_ [_ [Hforce [Hmultiple Hentries]]]]].
  split; [exact Hforce | split; [apply Hmultiple |]].
  apply Hentries. unfold getNumDofs. simpl. lia.
Defined.

(** C6 at the hand-on-box contact: the shoulder is a parent of the elbow. *)
Lemma getConstraintForceDerivative_product_rule_witness :
  let c := Scene.handOnBox (D:=Qc) collision.VERTEX_FACE Scene.up 0 in
  exists forceGradient,
    getContactWorldForceGradient c Scene.shoulder = Some forceGradient.
Proof.
  exact (proj2 (proj2 (getConstraintForceDerivative_product_rule
                         (Scene.handOnBox (D:=Qc) collision.VERTEX_FACE Scene.up 0)
                         Scene.elbow Scene.shoulder)) eq_refl).
Defined.

(** ** The model evaluated in binary64 arithmetic *)

Local Open Scope float_scope.

(** Both orientations of an edge-edge contact: the shoulder carries body A
    and is of type EDGE_B, the box carries body B and is of type EDGE_A. *)
Example edge_edge_both_orientations :
  let c := Scene.handOnBox (D:=float) collision.EDGE_EDGE Scene.up 0 in
  getDofContactType c Scene.shoulder = Some EDGE_B /\
  getDofContactType c Scene.elbow = Some EDGE_B /\
  getDofContactType c Scene.boxDof = Some EDGE_A.
Proof. repeat split; reflexivity. Qed.

(** Hand on box with normal (0,1,0) at (1,0,0): the world force is
    ((0,0,1), (0,1,0)); the arm gets +1 per coordinate, the box -1, a
    skeleton the constraint does not touch gets zeros. *)
Example forces_hand_on_box :
  let c := Scene.handOnBox (D:=float) collision.VERTEX_FACE
             (V3 0%float 1%float 0%float) 0 in
  getWorldForce c = V6 (V3 0 0 1) (V3 0 1 0) /\
  getConstraintForces c Scene.arm = [1; 1] /\
  getConstraintForces c Scene.boxSkel = [-1] /\
  getConstraintForces c Scene.loneSkel = [0].
Proof. repeat split; vm_compute; reflexivity. Qed.

(** The hand touching the upper arm: the shoulder is an ancestor of both
    bodies, its multiple and constraint force are zero, and the contact
    point still moves with it. *)
Example self_collision_shoulder :
  let c := Scene.handOnUpperArm (D:=float) collision.VERTEX_FACE
             (V3 0%float 1%float 0%float) 0 in
  getDofContactType c Scene.shoulder = Some VERTEX_FACE_SELF_COLLISION /\
  getForceMultiple c Scene.shoulder = 0%float /\
  getConstraintForces c Scene.arm = [0; 1] /\
  getContactPositionGradient c Scene.shoulder = Some (V3 0 1 0).
Proof. repeat split; vm_compute; reflexivity. Qed.

(** A degree of freedom differentiates the screw axes below it and the
    other axes of its own joint, not itself. *)
Example screw_axis_gradient_parents :
  isParentDof Scene.shoulder Scene.elbow = true /\
  isParentDof Scene.elbow Scene.shoulder = false /\
  isParentDof Scene.shoulder Scene.shoulder = false /\
  isParentDof Scene.boxDof Scene.elbow = false.
Proof. repeat split; reflexivity. Qed.

(** * Further properties of the assembled vectors and matrices *)

Local Close Scope float_scope.

#[global] Instance Qc_ScalarOppLaws : ScalarOppLaws Qc.
Proof.
  split; apply Qc_is_canon; reflexivity.
Qed.

(** ** Loops *)

Lemma forM_None {St : Type} (indices : list nat) (body : St -> nat -> option St) :
  fold_left (fun acc i => s ← acc; body s i) indices None = None.
Proof. induction indices as [|i indices IH]; simpl; [reflexivity | exact IH]. Qed.

(** The rule for a counted loop: an invariant that holds at entry and is
    carried by every turn holds at exit, and the loop has a result. *)
Lemma forM_invariant {St : Type} (P : nat -> St -> Prop) (n : nat)
    (body : St -> nat -> option St) (init : St) :
  P 0%nat init ->
  (forall k s, (k < n)%nat -> P k s -> exists s', body s k = Some s' /\ P (S k) s') ->
  exists final, forM (seq 0 n) body init = Some final /\ P n final.
Proof.
  intros Hinit Hstep. unfold forM.
  induction n as [|n IH].
  - exists init. split; [reflexivity | exact Hinit].
  - destruct IH as [mid [Hmid HP]].
    + intros k s Hk. apply Hstep. lia.
    + destruct (Hstep n mid (Nat.lt_succ_diag_r n) HP) as [final [Hbody HP']].
      exists final. split; [| exact HP'].
      rewrite seq_S, fold_left_app, Hmid. simpl. exact Hbody.
Qed.

Lemma fillColumns_fold_None {V : Type} (gradient : DegreeOfFreedom -> option V)
    (dofs : list DegreeOfFreedom) :
  fold_left (fun (acc : option (list V * nat)) dof =>
               '(jac, i) ← acc; col ← gradient dof; Some (<[i := col]> jac, S i))
            dofs None = None.
Proof. induction dofs as [|d dofs IH]; simpl; [reflexivity | exact IH]. Qed.

Lemma fillColumns_fold {V : Type} (gradient : DegreeOfFreedom -> option V)
    (dofs : list DegreeOfFreedom) (done rest : list V) :
  length rest = length dofs ->
  fold_left (fun (acc : option (list V * nat)) dof =>
               '(jac, i) ← acc; col ← gradient dof; Some (<[i := col]> jac, S i))
            dofs (Some (done ++ rest, length done))
  = (cols ← mapM gradient dofs; Some (done ++ cols, (length done + length dofs)%nat)).
Proof.
  revert done rest. induction dofs as [|d dofs IH]; intros done rest Hlen.
  - destruct rest; [| discriminate]. simpl.
    rewrite !app_nil_r, Nat.add_0_r. reflexivity.
  - destruct rest as [|r rest]; [discriminate |]. simpl in Hlen.
    simpl. destruct (gradient d) as [col|]; simpl.
    + replace (<[length done := col]> (done ++ r :: rest))
        with ((done ++ [col]) ++ rest).
      * replace (S (length done)) with (length (done ++ [col]))
          by (rewrite length_app; simpl; lia).
        rewrite IH by lia.
        destruct (mapM gradient dofs) as [cols|]; simpl; [| reflexivity].
        rewrite <- app_assoc, length_app. simpl.
        do 2 f_equal. lia.
      * rewrite <- app_assoc. simpl.
        rewrite insert_app_r_alt by lia.
        rewrite Nat.sub_diag. reflexivity.
    + apply fillColumns_fold_None.
Qed.

(** Filling a zeroed matrix with one column per degree of freedom gives
    the gradients in order, or nothing when one of them has no value. *)
Lemma fillColumns_mapM {V : Type} (gradient : DegreeOfFreedom -> option V)
    (dofs : list DegreeOfFreedom) (zero : V) :
  fillColumns gradient dofs (replicate (length dofs) zero) = mapM gradient dofs.
Proof.
  unfold fillColumns.
  pose proof (fillColumns_fold gradient dofs [] (replicate (length dofs) zero)
                (length_replicate _ _)) as E.
  simpl ([] ++ _) in E. simpl (length []) in E. rewrite E.
  destruct (mapM gradient dofs); reflexivity.
Qed.

(** ** The Jacobians of the contact *)

Section JacobianProperties.
Context {D : Type} `{Scalar D} `{Collaborators D}.
Implicit Types (c : DifferentiableContactConstraint D) (cc : ContactConstraint D).
Implicit Types (dof : DegreeOfFreedom) (skel : Skeleton).

Lemma assembleForceJacobian_zip (pos dir : Vector3d D)
    (posJac dirJac : list (Vector3d D)) (n : nat) :
  length posJac = n -> length dirJac = n ->
  assembleForceJacobian pos dir posJac dirJac n
  = Some (zip_with (forceColumn pos dir) posJac dirJac).
Proof.
  intros Hpos Hdir. unfold assembleForceJacobian.
  destruct (forM_invariant
    (fun k (jac : list (Vector6d D)) =>
       forall i, jac !! i =
         if decide (i < k)%nat
         then posCol ← posJac !! i; dirCol ← dirJac !! i;
              Some (V6 (vadd (cross pos dirCol) (cross posCol dir)) Zero3)
         else replicate n Zero6 !! i)
    n
    (fun jac i =>
       dirCol ← dirJac !! i; posCol ← posJac !! i;
       Some (alter (fun col => V6 (vadd (cross pos dirCol) (cross posCol dir))
                                  (tail3 col)) i jac))
    (replicate n Zero6)) as [final [Hfinal Hinv]].
  - intros i. destruct (decide (i < 0)%nat); [lia | reflexivity].
  - intros k jac Hk Hjac.
    destruct (lookup_lt_is_Some_2 posJac k) as [p Hp]; [lia |].
    destruct (lookup_lt_is_Some_2 dirJac k) as [d Hd]; [lia |].
    rewrite Hp, Hd. simpl. eexists. split; [reflexivity |].
    intros i. destruct (decide (i = k)) as [->|Hne].
    + rewrite list_lookup_alter_eq, Hjac.
      destruct (decide (k < k)%nat); [lia |].
      destruct (decide (k < S k)%nat); [| lia].
      rewrite lookup_replicate_2, Hp, Hd by lia. reflexivity.
    + rewrite list_lookup_alter_ne, Hjac by congruence.
      destruct (decide (i < k)%nat), (decide (i < S k)%nat); try lia; reflexivity.
  - rewrite Hfinal. simpl. f_equal. apply list_eq. intros i.
    rewrite !lookup_zip_with, Hinv.
    destruct (decide (i < n)%nat) as [Hlt|Hge].
    + destruct (lookup_lt_is_Some_2 posJac i) as [p Hp]; [lia |].
      destruct (lookup_lt_is_Some_2 dirJac i) as [d Hd]; [lia |].
      rewrite Hp, Hd. reflexivity.
    + rewrite (proj1 (lookup_replicate_None n Zero6 i)) by lia.
      rewrite (lookup_ge_None_2 posJac i) by lia. reflexivity.
Qed.

Lemma mapM_forceColumn (pos dir : Vector3d D)
    (posGrad dirGrad : DegreeOfFreedom -> option (Vector3d D))
    (dofs : list DegreeOfFreedom) :
  (posJac ← mapM posGrad dofs; dirJac ← mapM dirGrad dofs;
   Some (zip_with (forceColumn pos dir) posJac dirJac))
  = mapM (fun dof => dirCol ← dirGrad dof; posCol ← posGrad dof;
                     Some (forceColumn pos dir posCol dirCol)) dofs.
Proof.
  induction dofs as [|d dofs IH]; [reflexivity |].
  simpl. simpl in IH.
  destruct (posGrad d) as [p|], (dirGrad d) as [g|]; simpl;
    try rewrite <- IH;
    destruct (mapM posGrad dofs) as [ps|], (mapM dirGrad dofs) as [gs|];
    reflexivity.
Qed.

(* both overloads of getContactForceJacobian, over the list of degrees of
   freedom they run through *)
Lemma forceJacobian_mapM c (dofs : list DegreeOfFreedom) :
  (posJac ← fillColumns (getContactPositionGradient c) dofs
             (replicate (length dofs) Zero3);
   dirJac ← fillColumns (getContactForceGradient c) dofs
             (replicate (length dofs) Zero3);
   assembleForceJacobian (getContactWorldPosition c)
     (getContactWorldForceDirection c) posJac dirJac (length dofs))
  = mapM (getContactWorldForceGradient c) dofs.
Proof.
  rewrite !fillColumns_mapM.
  replace (mapM (getContactWorldForceGradient c) dofs)
    with (mapM (fun dof =>
                  dirCol ← getContactForceGradient c dof;
                  posCol ← getContactPositionGradient c dof;
                  Some (forceColumn (getContactWorldPosition c)
                          (getContactWorldForceDirection c) posCol dirCol))
               dofs)
    by (apply mapM_ext; intros dof; reflexivity).
  rewrite <- (mapM_forceColumn (getContactWorldPosition c)
                (getContactWorldForceDirection c)
                (getContactPositionGradient c) (getContactForceGradient c)).
  destruct (mapM (getContactPositionGradient c) dofs) as [ps|] eqn:Hps;
    [| reflexivity].
  destruct (mapM (getContactForceGradient c) dofs) as [gs|] eqn:Hgs;
    [| reflexivity].
  simpl. apply assembleForceJacobian_zip.
  - symmetry. exact (length_mapM _ _ _ Hps).
  - symmetry. exact (length_mapM _ _ _ Hgs).
Qed.

Lemma mapM_app_option {A B : Type} (f : A -> option B) (l1 l2 : list A) :
  mapM f (l1 ++ l2) = (k1 ← mapM f l1; k2 ← mapM f l2; Some (k1 ++ k2)).
Proof.
  induction l1 as [|x l1 IH]; simpl.
  - destruct (mapM f l2); reflexivity.
  - destruct (f x) as [y|]; simpl; [| reflexivity].
    rewrite IH. destruct (mapM f l1) as [k1|]; simpl; [| reflexivity].
    destruct (mapM f l2); reflexivity.
Qed.

Lemma mapM_concat {A B : Type} (f : A -> option B) (ls : list (list A)) :
  mapM f (concat ls) = @concat B <$> mapM (mapM f) ls.
Proof.
  induction ls as [|l ls IH]; simpl; [reflexivity |].
  rewrite mapM_app_option, IH.
  destruct (mapM f l) as [k|]; simpl; [| reflexivity].
  destruct (mapM (mapM f) ls); reflexivity.
Qed.

Lemma worldForceGradients_total c cc (dofs : list DegreeOfFreedom) :
  mContactConstraint c = Some cc ->
  exists cols, mapM (getContactWorldForceGradient c) dofs = Some cols.
Proof.
  intros Hcc. apply mapM_is_Some_2, Forall_forall. intros dof _.
  destruct (getContactWorldForceGradient_total c dof cc Hcc) as [g Hg].
  simpl. rewrite Hg. eauto.
Qed.

Lemma mapM_lookup {A B : Type} (f : A -> option B) (l : list A) (k : list B)
    (i : nat) (x : A) :
  mapM f l = Some k -> l !! i = Some x -> f x = k !! i.
Proof.
  intros Hk Hx. apply mapM_Some_1 in Hk.
  destruct (Forall2_lookup_l _ _ _ _ _ Hk Hx) as [y [Hy Hfy]].
  rewrite Hy. exact Hfy.
Qed.

(** X1: over a skeleton, the force Jacobian has a value exactly when the
    world force gradient of each degree of freedom has one, as it has for
    every contact constraint; it then has one column per degree of freedom,
    and column [i] is the world force gradient of degree of freedom [i]. *)
Theorem getContactForceJacobian_columns c skel :
  (isContactConstraint (mConstraint c) = true ->
   is_Some (getContactForceJacobian c skel)) /\
  (getContactForceJacobian c skel = None <->
   exists dof, In dof (getDofs skel) /\ getContactWorldForceGradient c dof = None) /\
  (forall jac, getContactForceJacobian c skel = Some jac ->
     length jac = getNumDofs skel /\
     forall i dof, getDof skel i = Some dof ->
       jac !! i = getContactWorldForceGradient c dof).
Proof.
  assert (E : getContactForceJacobian c skel
              = mapM (getContactWorldForceGradient c) (getDofs skel))
    by apply forceJacobian_mapM.
  rewrite E. split; [| split].
  - intros Hc. destruct (mContactConstraint c) as [cc|] eqn:Hcc.
    + destruct (worldForceGradients_total c cc (getDofs skel) Hcc) as [cols ->].
      eauto.
    + unfold mContactConstraint in Hcc. destruct (mConstraint c); discriminate.
  - rewrite mapM_None, Exists_exists. split.
    + intros [dof [Hin Hnone]]. exists dof. split; [| exact Hnone].
      apply list_elem_of_In. exact Hin.
    + intros [dof [Hin Hnone]]. exists dof. split; [| exact Hnone].
      apply list_elem_of_In. exact Hin.
  - intros jac Hjac. split.
    + symmetry. exact (length_mapM _ _ _ Hjac).
    + intros i dof Hdof. symmetry. exact (mapM_lookup _ _ _ _ _ Hjac Hdof).
Qed.

(** X2: over the world, the position, force-direction and force Jacobians
    are the Jacobians over the skeletons, side by side in registration
    order. *)
Theorem world_Jacobians_concat c (world : simulation.World) :
  getContactPositionJacobianOfWorld c world
  = @concat _ <$> mapM (getContactPositionJacobian c) (simulation.getSkeletonList world)
  /\ getContactForceDirectionJacobianOfWorld c world
  = @concat _ <$> mapM (getContactForceDirectionJacobian c)
                 (simulation.getSkeletonList world)
  /\ getContactForceJacobianOfWorld c world
  = @concat _ <$> mapM (getContactForceJacobian c) (simulation.getSkeletonList world).
Proof.
  assert (Hmap : forall (V : Type) (f : DegreeOfFreedom -> option V),
            mapM f (simulation.getDofs world)
            = @concat V <$> mapM (fun skel => mapM f (getDofs skel))
                           (simulation.getSkeletonList world)).
  { intros V f. unfold simulation.getDofs. rewrite mapM_concat.
    f_equal. induction (simulation.getSkeletonList world) as [|s ss IH];
      [reflexivity |].
    simpl. simpl in IH. rewrite IH. reflexivity. }
  repeat split.
  - unfold getContactPositionJacobianOfWorld, simulation.getNumDofs.
    rewrite fillColumns_mapM, Hmap. f_equal. apply mapM_ext. intros skel.
    unfold getContactPositionJacobian, getNumDofs. symmetry. apply fillColumns_mapM.
  - unfold getContactForceDirectionJacobianOfWorld, simulation.getNumDofs.
    rewrite fillColumns_mapM, Hmap. f_equal. apply mapM_ext. intros skel.
    unfold getContactForceDirectionJacobian, getNumDofs. symmetry.
    apply fillColumns_mapM.
  - unfold getContactForceJacobianOfWorld, getContactPositionJacobianOfWorld,
      getContactForceDirectionJacobianOfWorld, simulation.getNumDofs.
    rewrite forceJacobian_mapM, Hmap. f_equal. apply mapM_ext. intros skel.
    symmetry. apply forceJacobian_mapM.
Qed.

Lemma fillRow_row c (forceJac : list (Vector6d D)) (force : Vector6d D)
    (rowDof : DegreeOfFreedom) (wrtDofs : list DegreeOfFreedom)
    (row : nat) (result : list (list D)) :
  length forceJac = length wrtDofs ->
  (forall r, result !! row = Some r -> length r = length wrtDofs) ->
  fillRow c forceJac force rowDof wrtDofs row result
  = Some (alter (fun _ => zip_with (forcesJacobianEntry c force rowDof)
                            wrtDofs forceJac) row result).
Proof.
  intros Hjac Hrow. unfold fillRow.
  set (full := zip_with (forcesJacobianEntry c force rowDof) wrtDofs forceJac).
  assert (Hfull : length full = length wrtDofs).
  { unfold full. rewrite length_zip_with. lia. }
  destruct (forM_invariant
    (fun k (res : list (list D)) =>
       res = alter (fun r => take k full ++ drop k r) row result)
    (length wrtDofs)
    (fun res col =>
       wrtDof ← wrtDofs !! col;
       forceGradient ← forceJac !! col;
       Some (setEntry res row col
               (forcesJacobianEntry c force rowDof wrtDof forceGradient)))
    result) as [final [Hfinal Hinv]].
  - symmetry. apply list_alter_id. intros r. reflexivity.
  - intros k res Hk ->.
    destruct (lookup_lt_is_Some_2 wrtDofs k) as [d Hd]; [lia |].
    destruct (lookup_lt_is_Some_2 forceJac k) as [fg Hfg]; [lia |].
    rewrite Hd, Hfg. simpl. eexists. split; [reflexivity |].
    unfold setEntry. rewrite list_alter_alter_eq.
    apply list_alter_ext; [| reflexivity].
    intros r Hr. simpl.
    destruct (lookup_lt_is_Some_2 r k) as [y Hy]; [rewrite (Hrow r Hr); lia |].
    rewrite insert_app_r_alt by (rewrite length_take; lia).
    rewrite length_take_le by lia. rewrite Nat.sub_diag.
    rewrite (drop_S r y k Hy). simpl.
    rewrite (take_S_r full k (forcesJacobianEntry c force rowDof d fg)).
    + rewrite <- app_assoc. reflexivity.
    + unfold full. rewrite lookup_zip_with, Hd, Hfg. reflexivity.
  - unfold forcesJacobianEntry in Hfinal. rewrite Hfinal. f_equal.
    rewrite Hinv. apply list_alter_ext; [| reflexivity].
    intros r Hr.
    rewrite take_ge by lia. rewrite drop_ge by (rewrite (Hrow r Hr); lia).
    apply app_nil_r.
Qed.

(** The double loop of [getConstraintForcesJacobian]: one row per degree of
    freedom of [rows], one entry per degree of freedom of [wrtDofs]. *)
Lemma forcesJacobian_rows c (forceJac : list (Vector6d D)) (force : Vector6d D)
    (rows wrtDofs : list DegreeOfFreedom) :
  length forceJac = length wrtDofs ->
  forM (seq 0 (length rows))
    (fun result row =>
       rowDof ← rows !! row;
       fillRow c forceJac force rowDof wrtDofs row result)
    (replicate (length rows) (replicate (length wrtDofs) s0))
  = Some (map (fun rowDof =>
                 zip_with (forcesJacobianEntry c force rowDof) wrtDofs forceJac)
              rows).
Proof.
  intros Hjac.
  set (rowOf := fun rowDof =>
         zip_with (forcesJacobianEntry c force rowDof) wrtDofs forceJac).
  destruct (forM_invariant
    (fun k (res : list (list D)) =>
       res = map rowOf (take k rows)
             ++ replicate (length rows - k) (replicate (length wrtDofs) s0))
    (length rows)
    (fun result row =>
       rowDof ← rows !! row;
       fillRow c forceJac force rowDof wrtDofs row result)
    (replicate (length rows) (replicate (length wrtDofs) s0)))
    as [final [Hfinal Hinv]].
  - simpl. rewrite Nat.sub_0_r. reflexivity.
  - intros k res Hk ->.
    destruct (lookup_lt_is_Some_2 rows k) as [d Hd]; [lia |].
    rewrite Hd. simpl.
    assert (Hpre : length (map rowOf (take k rows)) = k).
    { rewrite length_map, length_take_le by lia. reflexivity. }
    replace (length rows - k)%nat with (S (length rows - S k)) by lia.
    rewrite replicate_S.
    rewrite fillRow_row.
    + eexists. split; [reflexivity |].
      rewrite alter_app_r_alt by lia.
      rewrite Hpre, Nat.sub_diag. simpl.
      rewrite (take_S_r rows k d Hd), map_app. simpl.
      rewrite <- app_assoc. reflexivity.
    + exact Hjac.
    + intros r. rewrite lookup_app_r by lia.
      rewrite Hpre, Nat.sub_diag. simpl. intros [= <-].
      apply length_replicate.
  - rewrite Hfinal. f_equal. rewrite Hinv.
    rewrite take_ge by lia. rewrite Nat.sub_diag. apply app_nil_r.
Qed.

End JacobianProperties.

(** ** The Jacobian of the constraint forces *)

Section ForcesJacobianProperties.
Context {D : Type} `{Scalar D} `{!ScalarLaws D} `{Collaborators D}.
Implicit Types (c : DifferentiableContactConstraint D) (cc : ContactConstraint D).
Implicit Types (dof : DegreeOfFreedom) (skel : Skeleton).

Lemma lookup_map {A B : Type} (f : A -> B) (l : list A) (i : nat) :
  map f l !! i = f <$> l !! i.
Proof.
  revert i. induction l as [|x l IH]; intros [|i]; simpl; try reflexivity.
  apply IH.
Qed.

Lemma forcesJacobianEntry_derivative c (rowDof wrtDof : DegreeOfFreedom)
    (forceGradient : Vector6d D) :
  getContactWorldForceGradient c wrtDof = Some forceGradient ->
  getConstraintForceDerivative c rowDof wrtDof
  = Some (forcesJacobianEntry c (getWorldForce c) rowDof wrtDof forceGradient).
Proof.
  intros Hfg. unfold getConstraintForceDerivative, forcesJacobianEntry.
  rewrite Hfg. simpl. rewrite smul_comm, sadd_comm. reflexivity.
Qed.

(* the table both overloads of getConstraintForcesJacobian build *)
Lemma forcesJacobian_table c cc (rows cols : list DegreeOfFreedom) :
  mContactConstraint c = Some cc ->
  exists M,
    (forceJac ← mapM (getContactWorldForceGradient c) cols;
     forM (seq 0 (length rows))
       (fun result row =>
          rowDof ← rows !! row;
          fillRow c forceJac (getWorldForce c) rowDof cols row result)
       (replicate (length rows) (replicate (length cols) s0)))
    = Some M /\
    length M = length rows /\
    (forall row r, M !! row = Some r -> length r = length cols) /\
    (forall row col rowDof wrtDof,
       rows !! row = Some rowDof -> cols !! col = Some wrtDof ->
       exists r, M !! row = Some r /\
                 r !! col = getConstraintForceDerivative c rowDof wrtDof).
Proof.
  intros Hcc.
  destruct (worldForceGradients_total c cc cols Hcc) as [fj Hfj].
  assert (Hlen : length fj = length cols)
    by (symmetry; exact (length_mapM _ _ _ Hfj)).
  rewrite Hfj. simpl. rewrite (forcesJacobian_rows c fj _ rows cols Hlen).
  eexists. split; [reflexivity |]. split; [apply length_map |]. split.
  - intros row r Hr. rewrite lookup_map in Hr.
    destruct (rows !! row); [| discriminate]. injection Hr as <-.
    rewrite length_zip_with. lia.
  - intros row col rowDof wrtDof Hrow Hcol.
    eexists. split.
    + rewrite lookup_map, Hrow. reflexivity.
    + rewrite lookup_zip_with, Hcol. simpl.
      pose proof (mapM_lookup _ _ _ _ _ Hfj Hcol) as Hfg.
      destruct (fj !! col) as [fg|] eqn:E.
      * simpl. symmetry. apply forcesJacobianEntry_derivative. exact Hfg.
      * apply lookup_ge_None in E.
        apply lookup_lt_Some in Hcol. lia.
Qed.

(** X3: for a contact constraint, [getConstraintForcesJacobian(skel, wrt)]
    has one row per degree of freedom of [skel] and one column per degree
    of freedom of [wrt], and its entry at (row, col) is
    [getConstraintForceDerivative] of the two degrees of freedom. *)
Theorem getConstraintForcesJacobian_entries c cc (skel wrt : Skeleton) :
  mContactConstraint c = Some cc ->
  exists M,
    getConstraintForcesJacobian c skel wrt = Some M /\
    length M = getNumDofs skel /\
    (forall row r, M !! row = Some r -> length r = getNumDofs wrt) /\
    (forall row col rowDof wrtDof,
       getDof skel row = Some rowDof -> getDof wrt col = Some wrtDof ->
       exists r, M !! row = Some r /\
                 r !! col = getConstraintForceDerivative c rowDof wrtDof).
Proof.
  intros Hcc. unfold getConstraintForcesJacobian.
  replace (getContactForceJacobian c wrt)
    with (mapM (getContactWorldForceGradient c) (getDofs wrt))
    by (symmetry; apply forceJacobian_mapM).
  exact (forcesJacobian_table c cc (getDofs skel) (getDofs wrt) Hcc).
Qed.

(** X4: for a contact constraint, [getConstraintForcesJacobian(world)] is
    square of the size of the world, and its entry at (row, wrt) is
    [getConstraintForceDerivative] of the two degrees of freedom of the
    world. *)
Theorem getConstraintForcesJacobianOfWorld_entries c cc (world : simulation.World) :
  mContactConstraint c = Some cc ->
  exists M,
    getConstraintForcesJacobianOfWorld c world = Some M /\
    length M = simulation.getNumDofs world /\
    (forall row r, M !! row = Some r -> length r = simulation.getNumDofs world) /\
    (forall row wrt rowDof wrtDof,
       simulation.getDofs world !! row = Some rowDof ->
       simulation.getDofs world !! wrt = Some wrtDof ->
       exists r, M !! row = Some r /\
                 r !! wrt = getConstraintForceDerivative c rowDof wrtDof).
Proof.
  intros Hcc. unfold getConstraintForcesJacobianOfWorld.
  replace (getContactForceJacobianOfWorld c world)
    with (mapM (getContactWorldForceGradient c) (simulation.getDofs world))
    by (symmetry; apply forceJacobian_mapM).
  exact (forcesJacobian_table c cc (simulation.getDofs world)
           (simulation.getDofs world) Hcc).
Qed.

(** X5: for a touched skeleton, the entry of [getConstraintForces] at a
    degree of freedom is [getConstraintForce] of that degree of freedom:
    the loop's shortcut for a zero multiple changes nothing. *)
Theorem getConstraintForces_getConstraintForce c skel (i : nat) dof :
  In (getName skel) (mSkeletons c) ->
  getDof skel i = Some dof ->
  getConstraintForces c skel !! i = Some (getConstraintForce c dof).
Proof.
  intros Hin Hdof.
  destruct (getConstraintForces_touched c skel Hin) as [_ Hget].
  rewrite (Hget i dof Hdof). unfold getConstraintForce.
  rewrite smul_comm. reflexivity.
Qed.

End ForcesJacobianProperties.

(** ** The constraint forces over the world *)

Section WorldForces.
Context {D : Type} `{Scalar D} `{Collaborators D}.
Implicit Types (c : DifferentiableContactConstraint D) (skel : Skeleton).

Lemma getConstraintForces_steps_length c skel (worldForce : Vector6d D)
    (indices : list nat) (taus : list D) :
  length (fold_left (getConstraintForces_step c skel worldForce) indices taus)
  = length taus.
Proof.
  revert taus. induction indices as [|i indices IH]; intros taus; [reflexivity |].
  simpl. rewrite IH. unfold getConstraintForces_step.
  destruct (getDof skel i); [| reflexivity].
  destruct (seqb _ _); apply length_insert.
Qed.

Lemma getConstraintForces_length c skel :
  length (getConstraintForces c skel) = getNumDofs skel.
Proof.
  unfold getConstraintForces.
  destruct (negb _).
  - apply length_replicate.
  - rewrite getConstraintForces_steps_length, length_map, length_seq. reflexivity.
Qed.

Lemma forces_concat_length c (skels : list Skeleton) :
  length (concat (map (getConstraintForces c) skels))
  = length (concat (map getDofs skels)).
Proof.
  induction skels as [|s skels IH]; [reflexivity |].
  simpl. rewrite !length_app, IH, getConstraintForces_length. reflexivity.
Qed.

(** X6: over the world, [getConstraintForces] is the concatenation of the
    vectors of the skeletons in registration order: it has one entry per
    degree of freedom of the world and none is left uninitialised. *)
Theorem getConstraintForcesOfWorld_concat c (world : simulation.World) :
  getConstraintForcesOfWorld c world
  = concat (map (getConstraintForces c) (simulation.getSkeletonList world))
  /\ length (getConstraintForcesOfWorld c world) = simulation.getNumDofs world.
Proof.
  assert (E : getConstraintForcesOfWorld c world
              = concat (map (getConstraintForces c)
                          (simulation.getSkeletonList world))).
  { unfold getConstraintForcesOfWorld, simulation.getNumSkeletons,
      simulation.getSkeleton.
    set (skels := simulation.getSkeletonList world).
    set (init := map uninitialized (seq 0 (simulation.getNumDofs world))).
    match goal with |- context [fold_left ?f _ _] => set (step := f) end.
    assert (Hinit : length init = length (concat (map getDofs skels))).
    { unfold init. rewrite length_map, length_seq. reflexivity. }
    assert (Hinv : forall k, (k <= length skels)%nat ->
              let done := concat (map (getConstraintForces c) (take k skels)) in
              fold_left step (seq 0 k) (init, 0%nat)
              = (done ++ drop (length done) init, length done)).
    { induction k as [|k IH]; intros Hk; cbv zeta.
      - simpl. rewrite drop_0. reflexivity.
      - cbv zeta in IH. rewrite seq_S, fold_left_app, IH by lia. simpl.
        destruct (lookup_lt_is_Some_2 skels k) as [s Hs]; [lia |].
        rewrite Hs, (take_S_r skels k s Hs), map_app, concat_app. simpl.
        rewrite app_nil_r.
        set (done := concat (map (getConstraintForces c) (take k skels))).
        unfold assignSegment.
        rewrite take_app_length.
        rewrite <- (getConstraintForces_length c s) at 1.
        rewrite firstn_all.
        rewrite drop_app_add, drop_drop.
        rewrite <- app_assoc, length_app, getConstraintForces_length.
        reflexivity. }
    specialize (Hinv (length skels) (Nat.le_refl _)). simpl in Hinv.
    rewrite Hinv. simpl. rewrite firstn_all.
    rewrite drop_ge by (rewrite forces_concat_length; lia).
    apply app_nil_r. }
  split; [exact E |].
  rewrite E, forces_concat_length. reflexivity.
Qed.

End WorldForces.

(** ** Degrees of freedom the contact does not move, or moves on both sides *)

Section VanishingProperties.
Context {D : Type} `{Scalar D} `{!ScalarLaws D} `{Collaborators D}.
Implicit Types (c : DifferentiableContactConstraint D) (cc : ContactConstraint D).
Implicit Types (dof : DegreeOfFreedom) (skel : Skeleton).

Lemma cross_Zero3_r (v : Vector3d D) : cross v Zero3 = Zero3.
Proof.
  unfold cross, Zero3; simpl. rewrite !smul_0_r, ssub_diag. reflexivity.
Qed.

Lemma vadd_Zero3_l (v : Vector3d D) : vadd Zero3 v = v.
Proof.
  destruct v as [a b e]. unfold vadd, Zero3; simpl. rewrite !sadd_0_l. reflexivity.
Qed.

Lemma vadd_Zero3_r (v : Vector3d D) : vadd v Zero3 = v.
Proof.
  destruct v as [a b e]. unfold vadd, Zero3; simpl.
  rewrite !(sadd_comm _ s0), !sadd_0_l. reflexivity.
Qed.

(** X7: a degree of freedom that is an ancestor of neither body of a
    contact is of type NONE; its multiple and its constraint force are
    zero, and the gradients of the contact position, normal, force
    direction and world force with respect to it are zero. *)
Theorem unrelated_dof_vanishes c cc dof :
  mContactConstraint c = Some cc ->
  isParent dof (getBodyNodeA cc) = false ->
  isParent dof (getBodyNodeB cc) = false ->
  getDofContactType c dof = Some NONE /\
  getForceMultiple c dof = s0 /\
  getConstraintForce c dof = s0 /\
  getContactPositionGradient c dof = Some Zero3 /\
  getContactNormalGradient c dof = Some Zero3 /\
  getContactForceGradient c dof = Some Zero3 /\
  getContactWorldForceGradient c dof = Some Zero6.
Proof.
  intros Hcc HA HB.
  assert (Ht : getDofContactType c dof = Some NONE).
  { unfold getDofContactType. rewrite Hcc. simpl. rewrite HA, HB. reflexivity. }
  assert (Hm : getForceMultiple c dof = s0).
  { unfold getForceMultiple. rewrite Hcc, HA, HB. reflexivity. }
  assert (Hp : getContactPositionGradient c dof = Some Zero3).
  { unfold getContactPositionGradient. rewrite Ht. reflexivity. }
  assert (Hf : getContactForceGradient c dof = Some Zero3).
  { unfold getContactForceGradient. rewrite Ht. reflexivity. }
  repeat split; try assumption.
  - unfold getConstraintForce. rewrite Hm. apply smul_0_r.
  - unfold getContactNormalGradient. rewrite Ht. reflexivity.
  - unfold getContactWorldForceGradient. rewrite Hf, Hp. simpl.
    rewrite cross_Zero3_r, cross_Zero3_l, vadd_Zero3_l. reflexivity.
Qed.

(** X8: a degree of freedom that is an ancestor of both bodies of a
    contact, or of neither, gets no constraint force and no derivative of
    it: its entry of [getConstraintForces] is zero, and so is
    [getConstraintForceDerivative] with respect to every degree of freedom
    and its whole row of [getConstraintForcesJacobian]. *)
Theorem balanced_dof_row_vanishes c cc (row : DegreeOfFreedom) :
  mContactConstraint c = Some cc ->
  isParent row (getBodyNodeA cc) = isParent row (getBodyNodeB cc) ->
  (forall wrt, getConstraintForceDerivative c row wrt = Some s0) /\
  (forall skel i, getDof skel i = Some row ->
     getConstraintForces c skel !! i = Some s0) /\
  (forall skel wrt M i, getConstraintForcesJacobian c skel wrt = Some M ->
     getDof skel i = Some row ->
     M !! i = Some (replicate (getNumDofs wrt) s0)).
Proof.
  intros Hcc Hsame.
  assert (Hm : getForceMultiple c row = s0).
  { unfold getForceMultiple. rewrite Hcc, Hsame.
    destruct (isParent row (getBodyNodeB cc)); reflexivity. }
  assert (Hd : forall wrt, getConstraintForceDerivative c row wrt = Some s0).
  { intros wrt.
    destruct (getContactWorldForceGradient_total c wrt cc Hcc) as [fg Hfg].
    unfold getConstraintForceDerivative. rewrite Hfg, Hm. simpl.
    rewrite smul_0_r. reflexivity. }
  split; [exact Hd | split].
  - intros skel i Hdof.
    destruct (in_dec string_dec (getName skel) (mSkeletons c)) as [Hin|Hout].
    + destruct (getConstraintForces_touched c skel Hin) as [_ Hget].
      rewrite (Hget i row Hdof), Hm, smul_0_l. reflexivity.
    + rewrite (getConstraintForces_untouched c skel Hout).
      apply lookup_replicate_2. apply lookup_lt_Some in Hdof. exact Hdof.
  - intros skel wrt M i HM Hdof.
    unfold getConstraintForcesJacobian in HM.
    replace (getContactForceJacobian c wrt)
      with (mapM (getContactWorldForceGradient c) (getDofs wrt)) in HM
      by (symmetry; apply forceJacobian_mapM).
    destruct (forcesJacobian_table c cc (getDofs skel) (getDofs wrt) Hcc)
      as [M' [HM' [Hlen [Hcols Hentries]]]].
    assert (Some M' = Some M) as [= ->] by (rewrite <- HM'; exact HM).
    destruct (lookup_lt_is_Some_2 M i) as [r Hr].
    { rewrite Hlen. apply lookup_lt_Some in Hdof. exact Hdof. }
    rewrite Hr. f_equal. apply list_eq. intros col.
    destruct (decide (col < getNumDofs wrt)%nat) as [Hlt|Hge].
    + destruct (lookup_lt_is_Some_2 (getDofs wrt) col Hlt) as [w Hw].
      destruct (Hentries i col row w Hdof Hw) as [r' [Hr' Hcol]].
      assert (r' = r) as -> by congruence.
      rewrite Hcol, Hd, lookup_replicate_2 by exact Hlt. reflexivity.
    + rewrite (proj1 (lookup_replicate_None _ _ _)) by lia.
      apply lookup_ge_None. rewrite (Hcols i r Hr). unfold getNumDofs in Hge. lia.
Qed.

End VanishingProperties.

(** ** Symmetries of the classification *)

Section SwapProperties.
Context {D : Type} `{Scalar D} `{!ScalarOppLaws D}.
Implicit Types (c : DifferentiableContactConstraint D) (cc : ContactConstraint D).

(** X9: exchanging the two bodies of a contact exchanges VERTEX with FACE
    and EDGE_A with EDGE_B in the type of every degree of freedom, keeps
    the other types, and negates the force multiple. *)
Theorem swapBodies_exchanges c c' cc (dof : DegreeOfFreedom) :
  mContactConstraint c = Some cc ->
  mContactConstraint c' = Some (swapBodies cc) ->
  getDofContactType c' dof = exchangeSides <$> getDofContactType c dof /\
  getForceMultiple c' dof = sopp (getForceMultiple c dof).
Proof.
  intros Hcc Hcc'. split.
  - unfold getDofContactType.
    rewrite (getContactType_contact c cc Hcc),
      (getContactType_contact c' (swapBodies cc) Hcc'), Hcc, Hcc'.
    simpl.
    destruct (isParent dof (getBodyNodeA cc)), (isParent dof (getBodyNodeB cc)),
      (type (getContact cc)); reflexivity.
  - unfold getForceMultiple. rewrite Hcc, Hcc'. simpl.
    destruct (isParent dof (getBodyNodeA cc)), (isParent dof (getBodyNodeB cc));
      simpl; symmetry;
      first [apply sopp_s0 | apply sopp_sopp_s1 | reflexivity].
Qed.

End SwapProperties.

(** ** The two ancestor tests *)

(** X10: for degrees of freedom of different joints, the test between two
    degrees of freedom is the test between the first and the child body
    node of the second, whose parent joint is the joint of the second. *)
Theorem isParentDof_isParent (parent child : DegreeOfFreedom) :
  Joint_ptr_eqb (getJoint parent) (getJoint child) = false ->
  getParentJoint (getChildBodyNode child) = getJoint child ->
  isParentDof parent child = isParent parent (getChildBodyNode child).
Proof.
  intros Hne Hchild. unfold isParentDof, isParent.
  rewrite Hne, Hchild. reflexivity.
Qed.

(** X11: the degrees of freedom of the parent joint of a body node are
    ancestors of it, whatever lies above; and an ancestor of the parent body
    node of a joint, no later in the tree, is an ancestor of every body
    node that joint carries. *)
Theorem isParent_own_joint_and_step (dof : DegreeOfFreedom) (node : BodyNode) :
  (getJoint dof = getParentJoint node -> isParent dof node = true) /\
  (forall above,
     getParentBodyNode (getParentJoint node) = Some above ->
     getSkeletonName (getParentJoint above) = getSkeletonName (getParentJoint node) ->
     getTreeIndex (getParentJoint above) = getTreeIndex (getParentJoint node) ->
     (getIndexInTree0 (getParentJoint above) <= getIndexInTree0 (getParentJoint node))%nat ->
     isParent dof above = true -> isParent dof node = true).
Proof.
  split.
  - intros E. unfold isParent. rewrite E, String.eqb_refl, Nat.eqb_refl. simpl.
    rewrite Nat.ltb_irrefl.
    destruct (getParentJoint node) as [a s t i p]; simpl.
    unfold Joint_ptr_eqb. simpl. rewrite Nat.eqb_refl. reflexivity.
  - intros above Habove Hname Htree Hindex. unfold isParent.
    rewrite Hname, Htree.
    destruct (negb (String.eqb _ _) || negb (Nat.eqb _ _)); [discriminate |].
    destruct (Nat.ltb_spec (getIndexInTree0 (getParentJoint above))
                           (getIndexInTree0 (getJoint dof))) as [Hlt|Hle];
      [discriminate |].
    intros Hwalk.
    destruct (Nat.ltb_spec (getIndexInTree0 (getParentJoint node))
                           (getIndexInTree0 (getJoint dof))) as [Hlt|_]; [lia |].
    destruct (getParentJoint node) as [a s t i p]. simpl in Habove. subst p.
    destruct above as [next]. simpl in Hwalk |- *.
    destruct (Joint_ptr_eqb _ _); [reflexivity | exact Hwalk].
Qed.

(** ** The normal row, the edges and the screw axes *)

Section RowProperties.
Context {D : Type} `{Scalar D} `{Collaborators D}.
Implicit Types (c : DifferentiableContactConstraint D) (cc : ContactConstraint D).
Implicit Types (dof : DegreeOfFreedom) (skel : Skeleton).

(** X12: on row 0 of a constraint the force direction is the normal, the
    world force is [(point x normal, normal)], and for every degree of
    freedom, whatever its type, the gradient of the force direction is the
    gradient of the normal. *)
Theorem normal_row c dof :
  mIndex c = 0 ->
  getContactWorldForceDirection c = getContactWorldNormal c /\
  getWorldForce c
  = V6 (cross (getContactWorldPosition c) (getContactWorldNormal c))
       (getContactWorldNormal c) /\
  getContactForceGradient c dof = getContactNormalGradient c dof.
Proof.
  intros Hindex.
  assert (Hdir : getContactWorldForceDirection c = getContactWorldNormal c).
  { unfold getContactWorldForceDirection, getContactWorldNormal, mContact.
    rewrite Hindex. destruct (mContactConstraint c); reflexivity. }
  split; [exact Hdir | split].
  - unfold getWorldForce. rewrite Hdir. reflexivity.
  - unfold getContactForceGradient.
    destruct (getDofContactType c dof) as [t|] eqn:Ht; simpl.
    + rewrite Hindex. simpl.
      destruct t;
        try (unfold getContactNormalGradient; rewrite Ht; reflexivity);
        simpl; destruct (getContactNormalGradient c dof); reflexivity.
    + unfold getContactNormalGradient. rewrite Ht. reflexivity.
Qed.

(** X13: the screw axis of a degree of freedom does not depend on its own
    coordinate, nor on a degree of freedom of another joint that belongs to
    another skeleton or tree or comes later in the tree. *)
Theorem getScrewAxisGradient_zero (row wrt : DegreeOfFreedom) :
  getScrewAxisGradient row row = Zero6 /\
  (Joint_ptr_eqb (getJoint wrt) (getJoint row) = false ->
   getSkeletonName (getJoint wrt) <> getSkeletonName (getJoint row) \/
   getTreeIndex (getJoint wrt) <> getTreeIndex (getJoint row) \/
   (getIndexInTree0 (getJoint row) < getIndexInTree0 (getJoint wrt))%nat ->
   getScrewAxisGradient row wrt = Zero6).
Proof.
  split.
  - unfold getScrewAxisGradient, isParentDof, Joint_ptr_eqb.
    rewrite !Nat.eqb_refl. reflexivity.
  - intros Hne Hfar. unfold getScrewAxisGradient, isParentDof. rewrite Hne.
    destruct Hfar as [Hname | [Htree | Hlater]].
    + apply String.eqb_neq in Hname. rewrite Hname. reflexivity.
    + apply Nat.eqb_neq in Htree. rewrite Htree, orb_true_r. reflexivity.
    + apply Nat.ltb_lt in Hlater. rewrite Hlater.
      destruct (_ || _); reflexivity.
Qed.

End RowProperties.

(** ** Constructed constraints *)

Section ConstructorProperties.
Context {D : Type} `{Scalar D} `{!ScalarLaws D} `{Collaborators D}.

(** X15: a constraint made by the constructor knows its skeletons by name.
    For a skeleton whose name none of them has, [getConstraintForces] is
    all zeros; for a skeleton that has the name of one of them, it holds
    [getConstraintForce] of each degree of freedom. *)
Theorem constructed_touches_by_name (constraint : ConstraintBase D) (index : Z)
    (skel : Skeleton) :
  let c := newDifferentiableContactConstraint constraint index in
  ((forall s, In s (getSkeletons constraint) -> getName s <> getName skel) ->
   getConstraintForces c skel = replicate (getNumDofs skel) s0) /\
  (forall s, In s (getSkeletons constraint) -> getName s = getName skel ->
   forall i dof, getDof skel i = Some dof ->
     getConstraintForces c skel !! i = Some (getConstraintForce c dof)).
Proof.
  cbv zeta. split.
  - intros Hnone. apply getConstraintForces_untouched. simpl.
    rewrite in_map_iff. intros [s [Hname Hin]]. exact (Hnone s Hin Hname).
  - intros s Hin Hname i dof Hdof.
    assert (Htouched : In (getName skel)
              (mSkeletons (newDifferentiableContactConstraint constraint index))).
    { simpl. rewrite in_map_iff. exists s. split; assumption. }
    destruct (getConstraintForces_touched _ skel Htouched) as [_ Hget].
    rewrite (Hget i dof Hdof). unfold getConstraintForce.
    rewrite smul_comm. reflexivity.
Qed.

End ConstructorProperties.

(** ** Edges *)

Section EdgeProperties.
Context {D : Type} `{Scalar D} `{!ScalarLaws D} `{Collaborators D}.
Implicit Types (c : DifferentiableContactConstraint D) (dof : DegreeOfFreedom).

(** X14: for a degree of freedom of type EDGE_A or EDGE_B, the gradient of
    the contact position is [getContactPointGradient] at the edges of the
    contact and their gradients by [getEdgeGradient], and the gradient of
    the normal is the product rule [dA x B + A x dB] on the edge
    directions; for a type other than EDGE_A, EDGE_B and
    EDGE_EDGE_SELF_COLLISION, [getEdgeGradient] is zero on both edges. *)
Theorem getEdgeGradient_composes c dof (t : DofContactType) :
  getDofContactType c dof = Some t ->
  (t = EDGE_A \/ t = EDGE_B ->
   exists contact e,
     mContact c = Some contact /\
     getEdgeGradient c dof = Some e /\
     getContactPositionGradient c dof
     = Some (getContactPointGradient
               (edgeAFixedPoint contact) (edges.edgeAPos e)
               (edgeADir contact) (edges.edgeADir e)
               (edgeBFixedPoint contact) (edges.edgeBPos e)
               (edgeBDir contact) (edges.edgeBDir e)) /\
     getContactNormalGradient c dof
     = Some (vadd (cross (edges.edgeADir e) (edgeBDir contact))
                  (cross (edgeADir contact) (edges.edgeBDir e)))) /\
  (t <> EDGE_A -> t <> EDGE_B -> t <> EDGE_EDGE_SELF_COLLISION ->
   getEdgeGradient c dof = Some (edges.mkEdgeData Zero3 Zero3 Zero3 Zero3)).
Proof.
  intros Ht.
  destruct (getDofContactType_is_contact c dof t Ht) as [cc Hcc].
  pose proof (mContact_contact c cc Hcc) as Hk.
  unfold getEdgeGradient, getContactPositionGradient, getContactNormalGradient.
  rewrite Ht. simpl. split.
  - intros [-> | ->]; simpl; rewrite Hk; simpl;
      eexists; eexists; (split; [reflexivity |]); (split; [reflexivity |]);
      (split; [reflexivity |]); simpl.
    + rewrite cross_Zero3_r, vadd_Zero3_r. reflexivity.
    + rewrite cross_Zero3_l, vadd_Zero3_l. reflexivity.
  - intros HA HB HS. destruct t; try contradiction; reflexivity.
Qed.

End EdgeProperties.

(** ** The estimates under a perturbation *)

Section EstimateProperties.
Context {D : Type} `{Scalar D} `{Collaborators D} `{!Perturbations D}.
Implicit Types (c : DifferentiableContactConstraint D) (dof : DegreeOfFreedom).
Implicit Types (skel : Skeleton).

(** X16: where the gradient is zero by the type of the degree of freedom,
    the estimate does not move for any step: the estimated contact position
    is the contact position for FACE, NONE and UNSUPPORTED, the estimated
    normal and force direction are the normal and the force direction for
    VERTEX, NONE and UNSUPPORTED, and the estimated screw axis is the screw
    axis when the rotated degree of freedom is not a parent. *)
Theorem estimates_still_where_gradient_zero c skel (i : nat) dof
    (t : DofContactType) (eps : D) :
  getDof skel i = Some dof ->
  getDofContactType c dof = Some t ->
  (moves_position t = false ->
   getContactPositionGradient c dof = Some Zero3 /\
   estimatePerturbedContactPosition c skel i eps
   = Some (getContactWorldPosition c)) /\
  (moves_normal t = false ->
   getContactNormalGradient c dof = Some Zero3 /\
   estimatePerturbedContactNormal c skel i eps
   = Some (getContactWorldNormal c) /\
   getContactForceGradient c dof = Some Zero3 /\
   estimatePerturbedContactForceDirection c skel i eps
   = Some (getContactWorldForceDirection c)) /\
  (forall axis, isParentDof dof axis = false ->
   getScrewAxisGradient axis dof = Zero6 /\
   estimatePerturbedScrewAxis axis dof eps = getWorldScrewAxis axis).
Proof.
  intros Hdof Ht.
  unfold estimatePerturbedContactPosition, estimatePerturbedContactNormal,
    estimatePerturbedContactForceDirection, getContactPositionGradient,
    getContactNormalGradient, getContactForceGradient.
  rewrite Hdof. simpl. rewrite Ht. simpl.
  split; [| split].
  - intros Hm. destruct t; try discriminate Hm; split; reflexivity.
  - intros Hm. destruct t; try discriminate Hm; repeat split; reflexivity.
  - intros axis Hnot.
    unfold getScrewAxisGradient, estimatePerturbedScrewAxis.
    rewrite Hnot. split; reflexivity.
Qed.

(** X17: on row 0 the estimated force direction is the estimated normal,
    for every degree of freedom and every step. *)
Theorem estimates_normal_row c skel (i : nat) (eps : D) :
  mIndex c = 0 ->
  estimatePerturbedContactForceDirection c skel i eps
  = estimatePerturbedContactNormal c skel i eps.
Proof.
  intros Hindex.
  unfold estimatePerturbedContactForceDirection.
  assert (Hdir : getContactWorldForceDirection c = getContactWorldNormal c).
  { unfold getContactWorldForceDirection, getContactWorldNormal, mContact.
    rewrite Hindex. destruct (mContactConstraint c); reflexivity. }
  rewrite Hdir, Hindex.
  destruct (getDof skel i) as [dof|] eqn:Hdof;
    [| unfold estimatePerturbedContactNormal; rewrite Hdof; reflexivity].
  simpl.
  destruct (getDofContactType c dof) as [t|] eqn:Ht;
    [| unfold estimatePerturbedContactNormal; rewrite Hdof; simpl; rewrite Ht;
       reflexivity].
  simpl.
  destruct t; simpl;
    try (unfold estimatePerturbedContactNormal; rewrite Hdof; simpl; rewrite Ht;
         reflexivity);
    destruct (estimatePerturbedContactNormal c skel i eps); reflexivity.
Qed.

End EstimateProperties.

(** ** The overloads of the Jacobian of the constraint forces *)

Section OverloadProperties.
Context {D : Type} `{Scalar D} `{Collaborators D}.
Implicit Types (c : DifferentiableContactConstraint D) (cc : ContactConstraint D).
Implicit Types (skel : Skeleton) (skels : list Skeleton).

Lemma count_dofs skels (n : nat) :
  fold_left (fun n skel => (n + getNumDofs skel)%nat) skels n
  = (n + length (concat (map getDofs skels)))%nat.
Proof.
  revert n. induction skels as [|s skels IH]; intros n; simpl.
  - lia.
  - rewrite IH, length_app. unfold getNumDofs. lia.
Qed.

Lemma zip_with_map_r {A B C : Type} (f : A -> B -> C) (g : A -> B) (l : list A) :
  zip_with f l (map g l) = map (fun x => f x (g x)) l.
Proof. induction l as [|x l IH]; simpl; [reflexivity | rewrite IH; reflexivity]. Qed.

Lemma zip_with_map_map {A B C E : Type} (f : B -> C -> E) (g : A -> B)
    (h : A -> C) (l : list A) :
  zip_with f (map g l) (map h l) = map (fun x => f (g x) (h x)) l.
Proof. induction l as [|x l IH]; simpl; [reflexivity | rewrite IH; reflexivity]. Qed.

Lemma worldForceGradients_default c cc (dofs : list DegreeOfFreedom) :
  mContactConstraint c = Some cc ->
  mapM (getContactWorldForceGradient c) dofs
  = Some (map (fun dof => default Zero6 (getContactWorldForceGradient c dof)) dofs).
Proof.
  intros Hcc. induction dofs as [|d dofs IH]; [reflexivity |].
  simpl. simpl in IH. rewrite IH.
  destruct (getContactWorldForceGradient_total c d cc Hcc) as [g ->].
  reflexivity.
Qed.

Lemma forceJacobian_default c cc skel :
  mContactConstraint c = Some cc ->
  getContactForceJacobian c skel
  = Some (map (fun dof => default Zero6 (getContactWorldForceGradient c dof))
              (getDofs skel)).
Proof.
  intros Hcc. rewrite <- (worldForceGradients_default c cc _ Hcc).
  apply forceJacobian_mapM.
Qed.

Lemma rowOf_default c (rowDof : DegreeOfFreedom) (cols : list DegreeOfFreedom) :
  zip_with (forcesJacobianEntry c (getWorldForce c) rowDof) cols
    (map (fun dof => default Zero6 (getContactWorldForceGradient c dof)) cols)
  = map (forcesJacobianValue c rowDof) cols.
Proof. apply zip_with_map_r. Qed.

Lemma world_table c cc (world : simulation.World) :
  mContactConstraint c = Some cc ->
  getConstraintForcesJacobianOfWorld c world
  = Some (forcesJacobianTable c (simulation.getDofs world) (simulation.getDofs world)).
Proof.
  intros Hcc. unfold getConstraintForcesJacobianOfWorld.
  replace (getContactForceJacobianOfWorld c world)
    with (mapM (getContactWorldForceGradient c) (simulation.getDofs world))
    by (symmetry; apply forceJacobian_mapM).
  rewrite (worldForceGradients_default c cc _ Hcc). simpl.
  unfold simulation.getNumDofs.
  rewrite forcesJacobian_rows by apply length_map.
  f_equal. unfold forcesJacobianTable. apply map_ext. intros rowDof. apply rowOf_default.
Qed.

(* the rows of one skeleton, in getConstraintForcesJacobian(skels, wrt) *)
Lemma skeleton_rows c (forceJac : list (Vector6d D)) (force : Vector6d D)
    (cols done rowDofs : list DegreeOfFreedom) (m : nat) :
  length forceJac = length cols ->
  let rowOf := fun rowDof =>
    zip_with (forcesJacobianEntry c force rowDof) cols forceJac in
  let zeroRow := replicate (length cols) s0 in
  forM (seq 0 (length rowDofs))
    (fun '(result, row) i =>
       rowDof ← rowDofs !! i;
       result ← fillRow c forceJac force rowDof cols row result;
       Some (result, S row))
    (map rowOf done ++ replicate (length rowDofs + m) zeroRow, length done)
  = Some (map rowOf (done ++ rowDofs) ++ replicate m zeroRow,
          (length done + length rowDofs)%nat).
Proof.
  intros Hjac rowOf zeroRow.
  destruct (forM_invariant
    (fun j (st : list (list D) * nat) =>
       st = (map rowOf (done ++ take j rowDofs)
             ++ replicate (length rowDofs - j + m) zeroRow,
             (length done + j)%nat))
    (length rowDofs)
    (fun '(result, row) i =>
       rowDof ← rowDofs !! i;
       result ← fillRow c forceJac force rowDof cols row result;
       Some (result, S row))
    (map rowOf done ++ replicate (length rowDofs + m) zeroRow, length done))
    as [final [Hfinal Hinv]].
  - simpl. rewrite app_nil_r, Nat.sub_0_r, Nat.add_0_r. reflexivity.
  - intros j st Hj ->.
    destruct (lookup_lt_is_Some_2 rowDofs j) as [d Hd]; [lia |].
    rewrite Hd. simpl.
    assert (Hpre : length (map rowOf (done ++ take j rowDofs))
                   = (length done + j)%nat).
    { rewrite length_map, length_app, length_take_le by lia. reflexivity. }
    replace (length rowDofs - j + m)%nat
      with (S (length rowDofs - S j + m)) by lia.
    rewrite replicate_S.
    rewrite fillRow_row.
    + simpl. eexists. split; [reflexivity |].
      rewrite alter_app_r_alt by lia.
      rewrite Hpre, Nat.sub_diag. simpl.
      rewrite (take_S_r rowDofs j d Hd).
      f_equal; [| lia].
      rewrite !map_app. simpl. rewrite <- !app_assoc. reflexivity.
    + exact Hjac.
    + intros r. rewrite lookup_app_r by lia.
      rewrite Hpre, Nat.sub_diag. simpl. intros [= <-].
      apply length_replicate.
  - rewrite Hfinal, Hinv.
    rewrite take_ge by lia. rewrite Nat.sub_diag. reflexivity.
Qed.

Lemma skeletons_rows c (forceJac : list (Vector6d D)) (force : Vector6d D)
    (cols : list DegreeOfFreedom) skels (done : list DegreeOfFreedom) :
  length forceJac = length cols ->
  let rowOf := fun rowDof =>
    zip_with (forcesJacobianEntry c force rowDof) cols forceJac in
  let zeroRow := replicate (length cols) s0 in
  fold_left
    (fun acc skel =>
       st ← acc;
       forM (seq 0 (getNumDofs skel))
         (fun '(result, row) i =>
            rowDof ← getDof skel i;
            result ← fillRow c forceJac force rowDof cols row result;
            Some (result, S row))
         st)
    skels
    (Some (map rowOf done
           ++ replicate (length (concat (map getDofs skels))) zeroRow,
           length done))
  = Some (map rowOf (done ++ concat (map getDofs skels)),
          length (done ++ concat (map getDofs skels))).
Proof.
  intros Hjac rowOf zeroRow. revert done.
  induction skels as [|s skels IH]; intros done.
  - simpl. rewrite !app_nil_r. reflexivity.
  - simpl. rewrite length_app.
    assert (Hrows :
      forM (seq 0 (getNumDofs s))
        (fun '(result, row) i =>
           rowDof ← getDof s i;
           result ← fillRow c forceJac force rowDof cols row result;
           Some (result, S row))
        (map rowOf done
         ++ replicate (length (getDofs s) + length (concat (map getDofs skels)))
              zeroRow, length done)
      = Some (map rowOf (done ++ getDofs s)
              ++ replicate (length (concat (map getDofs skels))) zeroRow,
              (length done + length (getDofs s))%nat))
      by exact (skeleton_rows c forceJac force cols done (getDofs s)
                  (length (concat (map getDofs skels))) Hjac).
    rewrite Hrows.
    replace (length done + length (getDofs s))%nat
      with (length (done ++ getDofs s)) by apply length_app.
    rewrite (IH (done ++ getDofs s)).
    rewrite <- app_assoc. reflexivity.
Qed.

Lemma skeletons_table c cc skels (wrt : Skeleton) :
  mContactConstraint c = Some cc ->
  getConstraintForcesJacobianOfSkeletons c skels wrt
  = Some (forcesJacobianTable c (concat (map getDofs skels)) (getDofs wrt)).
Proof.
  intros Hcc. unfold getConstraintForcesJacobianOfSkeletons.
  rewrite (forceJacobian_default c cc wrt Hcc). simpl.
  rewrite count_dofs.
  match goal with
  | |- context [fold_left ?f skels ?init] =>
      assert (Hrows : fold_left f skels init
                = Some (map (fun rowDof =>
                               zip_with (forcesJacobianEntry c (getWorldForce c) rowDof)
                                 (getDofs wrt)
                                 (map (fun dof => default Zero6
                                         (getContactWorldForceGradient c dof))
                                      (getDofs wrt)))
                            (concat (map getDofs skels)),
                        length (concat (map getDofs skels))))
        by exact (skeletons_rows c _ (getWorldForce c) (getDofs wrt) skels []
                    (length_map _ _))
  end.
  rewrite Hrows. simpl. f_equal. unfold forcesJacobianTable. apply map_ext.
  intros rowDof. apply rowOf_default.
Qed.

Lemma skeleton_table c cc (skel wrt : Skeleton) :
  mContactConstraint c = Some cc ->
  getConstraintForcesJacobian c skel wrt
  = Some (forcesJacobianTable c (getDofs skel) (getDofs wrt)).
Proof.
  intros Hcc. unfold getConstraintForcesJacobian.
  rewrite (forceJacobian_default c cc wrt Hcc). simpl.
  unfold getNumDofs.
  match goal with
  | |- forM ?idx ?body ?init = _ =>
      assert (Hrows : forM idx body init
                = Some (map (fun rowDof =>
                               zip_with (forcesJacobianEntry c (getWorldForce c) rowDof)
                                 (getDofs wrt)
                                 (map (fun dof => default Zero6
                                         (getContactWorldForceGradient c dof))
                                      (getDofs wrt)))
                            (getDofs skel)))
        by exact (forcesJacobian_rows c _ (getWorldForce c) (getDofs skel)
                    (getDofs wrt) (length_map _ _))
  end.
  rewrite Hrows. f_equal. unfold forcesJacobianTable. apply map_ext.
  intros rowDof. apply rowOf_default.
Qed.

Lemma assignSegment_fill {V : Type} (done v : list V) (m : nat) (z : V) :
  assignSegment (done ++ replicate (length v + m) z) (length done) (length v) v
  = (done ++ v) ++ replicate m z.
Proof.
  unfold assignSegment.
  rewrite take_app_length, firstn_all, drop_app_add, drop_replicate.
  replace (length v + m - length v)%nat with m by lia.
  rewrite <- app_assoc. reflexivity.
Qed.

(* the blocks of getConstraintForcesJacobian(skels), over the skeletons
   still to come *)
Lemma all_blocks c cc (full rest : list Skeleton) (done : list DegreeOfFreedom) :
  mContactConstraint c = Some cc ->
  let rows := concat (map getDofs full) in
  fold_left
    (fun acc skel =>
       '(result, cursor) ← acc;
       block ← getConstraintForcesJacobianOfSkeletons c full skel;
       Some (assignColumns result cursor (getNumDofs skel) block,
             (cursor + getNumDofs skel)%nat))
    rest
    (Some (map (fun rowDof =>
                  map (forcesJacobianValue c rowDof) done
                  ++ replicate (length (concat (map getDofs rest))) s0)
               rows,
           length done))
  = Some (map (fun rowDof =>
                 map (forcesJacobianValue c rowDof)
                     (done ++ concat (map getDofs rest)))
              rows,
          length (done ++ concat (map getDofs rest))).
Proof.
  intros Hcc rows. revert done.
  induction rest as [|s rest IH]; intros done.
  - simpl. rewrite app_nil_r. f_equal. f_equal.
    apply map_ext. intros rowDof. apply app_nil_r.
  - simpl. rewrite (skeletons_table c cc full s Hcc). simpl.
    rewrite !(app_assoc done).
    rewrite <- (IH (done ++ getDofs s)).
    f_equal. f_equal.
    replace (length done + getNumDofs s)%nat with (length (done ++ getDofs s))
      by (rewrite length_app; reflexivity).
    f_equal.
    unfold assignColumns, forcesJacobianTable. fold rows.
    rewrite zip_with_map_map.
    apply map_ext. intros rowDof.
    rewrite length_app, map_app.
    replace (getNumDofs s)
      with (length (map (forcesJacobianValue c rowDof) (getDofs s)))
      by apply length_map.
    replace (length done)
      with (length (map (forcesJacobianValue c rowDof) done))
      by apply length_map.
    replace (length (getDofs s))
      with (length (map (forcesJacobianValue c rowDof) (getDofs s)))
      by apply length_map.
    apply assignSegment_fill.
Qed.

Lemma replicate_length_map {A B : Type} (l : list A) (x : B) :
  replicate (length l) x = map (fun _ => x) l.
Proof. induction l as [|a l IH]; simpl; [reflexivity | rewrite IH; reflexivity]. Qed.

(** X18: for a contact constraint, the Jacobian assembled block by block
    over a list of skeletons is the Jacobian filled entry by entry over the
    world of these skeletons. *)
Theorem getConstraintForcesJacobian_blocks_agree c cc skels :
  mContactConstraint c = Some cc ->
  getConstraintForcesJacobianOfAll c skels
  = getConstraintForcesJacobianOfWorld c (simulation.mkWorld skels)
  /\ is_Some (getConstraintForcesJacobianOfAll c skels).
Proof.
  intros Hcc.
  assert (E : getConstraintForcesJacobianOfAll c skels
              = Some (forcesJacobianTable c (concat (map getDofs skels))
                              (concat (map getDofs skels)))).
  { unfold getConstraintForcesJacobianOfAll. rewrite count_dofs. simpl.
    match goal with
    | |- context [fold_left ?f skels ?init] =>
        assert (Hblocks : fold_left f skels init
                  = Some (map (fun rowDof =>
                                 map (forcesJacobianValue c rowDof)
                                     ([] ++ concat (map getDofs skels)))
                              (concat (map getDofs skels)),
                          length ([] ++ concat (map getDofs skels))))
    end.
    { rewrite <- (all_blocks c cc skels skels [] Hcc). f_equal. f_equal. f_equal.
      apply replicate_length_map. }
    rewrite Hblocks. reflexivity. }
  split.
  - rewrite E. symmetry. apply (world_table c cc (simulation.mkWorld skels) Hcc).
  - rewrite E. eauto.
Qed.

(** X19: for a contact constraint, the Jacobian of the forces on a list of
    skeletons with respect to one skeleton is the Jacobians of the single
    skeletons with respect to it, stacked in order. *)
Theorem getConstraintForcesJacobian_rows_stack c cc skels (wrt : Skeleton) :
  mContactConstraint c = Some cc ->
  getConstraintForcesJacobianOfSkeletons c skels wrt
  = @concat _ <$> mapM (fun skel => getConstraintForcesJacobian c skel wrt) skels.
Proof.
  intros Hcc. rewrite (skeletons_table c cc skels wrt Hcc).
  induction skels as [|s skels IH]; [reflexivity |].
  simpl. rewrite (skeleton_table c cc s wrt Hcc). simpl.
  simpl in IH. destruct (mapM _ skels) as [blocks|]; [| discriminate IH].
  simpl in *. injection IH as IH. f_equal. unfold forcesJacobianTable in *.
  rewrite map_app, IH. reflexivity.
Qed.

End OverloadProperties.

(** ** Constraints that are not contacts *)

Section NonContactProperties.
Context {D : Type} `{Scalar D} `{Collaborators D}.
Implicit Types (c : DifferentiableContactConstraint D) (dof : DegreeOfFreedom).

(** X20: when the wrapped constraint is not a contact constraint, the
    queries that classify a degree of freedom or differentiate with respect
    to it read the null contact constraint and have no result: the type,
    the four gradients, the edge gradient, the derivative of the constraint
    force, and every Jacobian over a skeleton with a degree of freedom.
    The contact type is UNSUPPORTED and the edges are zero. *)
Theorem non_contact_gradients_undefined c dof (row : DegreeOfFreedom)
    (skel wrt : Skeleton) :
  isContactConstraint (mConstraint c) = false ->
  getDofContactType c dof = None /\
  getContactPositionGradient c dof = None /\
  getContactNormalGradient c dof = None /\
  getContactForceGradient c dof = None /\
  getContactWorldForceGradient c dof = None /\
  getEdgeGradient c dof = None /\
  getConstraintForceDerivative c row dof = None /\
  (In dof (getDofs wrt) ->
   getContactPositionJacobian c wrt = None /\
   getContactForceDirectionJacobian c wrt = None /\
   getContactForceJacobian c wrt = None /\
   getConstraintForcesJacobian c skel wrt = None) /\
  getContactType c = collision.UNSUPPORTED /\
  getEdges c = edges.mkEdgeData Zero3 Zero3 Zero3 Zero3.
Proof.
  intros Hnot.
  assert (Hcc : mContactConstraint c = None).
  { unfold mContactConstraint. destruct (mConstraint c); [discriminate | reflexivity]. }
  assert (Ht : forall d, getDofContactType c d = None).
  { intros d. unfold getDofContactType. rewrite Hcc. reflexivity. }
  assert (Hp : forall d, getContactPositionGradient c d = None).
  { intros d. unfold getContactPositionGradient. rewrite Ht. reflexivity. }
  assert (Hf : forall d, getContactForceGradient c d = None).
  { intros d. unfold getContactForceGradient. rewrite Ht. reflexivity. }
  assert (Hw : forall d, getContactWorldForceGradient c d = None).
  { intros d. unfold getContactWorldForceGradient. rewrite Hf. reflexivity. }
  repeat split; auto.
  - unfold getContactNormalGradient. rewrite Ht. reflexivity.
  - unfold getEdgeGradient. rewrite Ht. reflexivity.
  - unfold getConstraintForceDerivative. rewrite Hw. reflexivity.
  - unfold getContactPositionJacobian, getNumDofs. rewrite fillColumns_mapM.
    apply mapM_None_2, Exists_exists. exists dof.
    split; [apply list_elem_of_In; assumption | apply Hp].
  - unfold getContactForceDirectionJacobian, getNumDofs. rewrite fillColumns_mapM.
    apply mapM_None_2, Exists_exists. exists dof.
    split; [apply list_elem_of_In; assumption | apply Hf].
  - unfold getContactForceJacobian, getContactPositionJacobian, getNumDofs.
    rewrite fillColumns_mapM.
    rewrite (mapM_None_2 (getContactPositionGradient c) (getDofs wrt));
      [reflexivity |].
    apply Exists_exists. exists dof.
    split; [apply list_elem_of_In; assumption | apply Hp].
  - unfold getConstraintForcesJacobian, getContactForceJacobian,
      getContactPositionJacobian, getNumDofs.
    rewrite fillColumns_mapM.
    rewrite (mapM_None_2 (getContactPositionGradient c) (getDofs wrt));
      [reflexivity |].
    apply Exists_exists. exists dof.
    split; [apply list_elem_of_In; assumption | apply Hp].
  - unfold getContactType, mContact. rewrite Hcc. reflexivity.
  - unfold getEdges, getContactType, mContact. rewrite Hcc. reflexivity.
Qed.

End NonContactProperties.

(** ** The further properties at the example world *)

Import ScenePerturbations.

Import ExactScene.

(** X3 at the arm and the box. *)
Lemma getConstraintForcesJacobian_entries_witness :
  exists M,
    getConstraintForcesJacobian handBox Scene.arm Scene.boxSkel = Some M /\
    length M = 2%nat.
Proof.
  destruct (getConstraintForcesJacobian_entries handBox handBoxCC
              Scene.arm Scene.boxSkel eq_refl) as [M [HM [Hlen _]]].
  exists M. split; [exact HM | exact Hlen].
Defined.

(** X4 at the world of the arm and the box. *)
Lemma getConstraintForcesJacobianOfWorld_entries_witness :
  exists M,
    getConstraintForcesJacobianOfWorld handBox ScenePerturbations.world = Some M /\
    length M = 3%nat.
Proof.
  destruct (getConstraintForcesJacobianOfWorld_entries handBox handBoxCC
              ScenePerturbations.world eq_refl) as [M [HM [Hlen _]]].
  exists M. split; [exact HM | exact Hlen].
Defined.

(** X5 at the elbow. *)
Lemma getConstraintForces_getConstraintForce_witness :
  getConstraintForces handBox Scene.arm !! 1%nat
  = Some (getConstraintForce handBox Scene.elbow).
Proof.
  apply (getConstraintForces_getConstraintForce handBox Scene.arm 1 Scene.elbow).
  - left. reflexivity.
  - reflexivity.
Defined.

(** X7 at the elbow and the contact of upper arm and box. *)
Lemma unrelated_dof_vanishes_witness :
  let c := Scene.upperArmOnBox (D:=Qc) collision.VERTEX_FACE Scene.up 0 in
  getDofContactType c Scene.elbow = Some NONE /\
  getContactWorldForceGradient c Scene.elbow = Some Zero6.
Proof.
  cbv zeta.
  pose proof (unrelated_dof_vanishes
                (Scene.upperArmOnBox (D:=Qc) collision.VERTEX_FACE Scene.up 0)
                (Scene.contactConstraintOf collision.VERTEX_FACE Scene.up
                   Scene.upperArm Scene.box)
                Scene.elbow eq_refl eq_refl eq_refl)
    as [Htype [_ [_ [_ [_ [_ Hforce]]]]]].
  split; [exact Htype | exact Hforce].
Defined.

(** X8 at the shoulder and the contact of hand and upper arm. *)
Lemma balanced_dof_row_vanishes_witness :
  let c := Scene.handOnUpperArm (D:=Qc) collision.VERTEX_FACE Scene.up 0 in
  getConstraintForceDerivative c Scene.shoulder Scene.elbow = Some s0 /\
  getConstraintForces c Scene.arm !! 0%nat = Some s0.
Proof.
  cbv zeta.
  pose proof (balanced_dof_row_vanishes
                (Scene.handOnUpperArm (D:=Qc) collision.VERTEX_FACE Scene.up 0)
                (Scene.contactConstraintOf collision.VERTEX_FACE Scene.up
                   Scene.hand Scene.upperArm)
                Scene.shoulder eq_refl eq_refl)
    as [Hderivative [Hforce _]].
  split; [apply Hderivative | apply Hforce; reflexivity].
Defined.

(** X9 at the box against the hand, the mirror image of hand on box. *)
Lemma swapBodies_exchanges_witness :
  let c' := newDifferentiableContactConstraint
              (IsContactConstraint (swapBodies handBoxCC)) 0 in
  getDofContactType c' Scene.elbow
  = exchangeSides <$> getDofContactType handBox Scene.elbow /\
  getForceMultiple c' Scene.elbow = sopp (getForceMultiple handBox Scene.elbow).
Proof.
  exact (swapBodies_exchanges handBox
           (newDifferentiableContactConstraint
              (IsContactConstraint (swapBodies handBoxCC)) 0)
           handBoxCC Scene.elbow eq_refl eq_refl).
Defined.

(** X10 at the shoulder and the elbow. *)
Lemma isParentDof_isParent_witness :
  isParentDof Scene.shoulder Scene.elbow = isParent Scene.shoulder Scene.hand.
Proof.
  exact (isParentDof_isParent Scene.shoulder Scene.elbow eq_refl eq_refl).
Defined.

(** X12 at the hand-on-box contact. *)
Lemma normal_row_witness :
  getContactWorldForceDirection handBox = getContactWorldNormal handBox /\
  getWorldForce handBox
  = V6 (cross (getContactWorldPosition handBox) (getContactWorldNormal handBox))
       (getContactWorldNormal handBox) /\
  getContactForceGradient handBox Scene.boxDof
  = getContactNormalGradient handBox Scene.boxDof.
Proof.
  exact (normal_row handBox Scene.boxDof eq_refl).
Defined.

(** X14 at an edge-edge contact of hand and box, seen from the box. *)
Lemma getEdgeGradient_composes_witness :
  let c := Scene.handOnBox (D:=Qc) collision.EDGE_EDGE Scene.up 0 in
  exists contact e,
    mContact c = Some contact /\
    getEdgeGradient c Scene.boxDof = Some e /\
    getContactNormalGradient c Scene.boxDof
    = Some (vadd (cross (edges.edgeADir e) (edgeBDir contact))
                 (cross (edgeADir contact) (edges.edgeBDir e))).
Proof.
  cbv zeta.
  destruct (proj1 (getEdgeGradient_composes
                     (Scene.handOnBox (D:=Qc) collision.EDGE_EDGE Scene.up 0)
                     Scene.boxDof EDGE_A eq_refl) (or_introl eq_refl))
    as [contact [e [Hcontact [Hedge [_ Hnormal]]]]].
  exists contact, e. repeat split; assumption.
Defined.

(** X15 at a contact of hand and box and a skeleton of another name. *)
Lemma constructed_touches_by_name_witness :
  getConstraintForces handBox Scene.loneSkel
  = replicate (getNumDofs Scene.loneSkel) s0.
Proof.
  apply (constructed_touches_by_name
           (IsContactConstraint handBoxCC) 0 Scene.loneSkel).
  intros s [E | [E | []]]; subst s; discriminate.
Defined.

(** X16 at the box, a FACE of the hand-on-box contact. *)
Lemma estimates_still_where_gradient_zero_witness :
  estimatePerturbedContactPosition handBox Scene.boxSkel 0 s1
  = Some (getContactWorldPosition handBox).
Proof.
  apply (estimates_still_where_gradient_zero handBox Scene.boxSkel 0
           Scene.boxDof FACE s1 eq_refl eq_refl).
  reflexivity.
Defined.

(** X17 at the hand-on-box contact. *)
Lemma estimates_normal_row_witness :
  estimatePerturbedContactForceDirection handBox Scene.arm 1 s1
  = estimatePerturbedContactNormal handBox Scene.arm 1 s1.
Proof.
  exact (estimates_normal_row handBox Scene.arm 1 s1 eq_refl).
Defined.

(** X18 at the arm and the box. *)
Lemma getConstraintForcesJacobian_blocks_agree_witness :
  getConstraintForcesJacobianOfAll handBox [Scene.arm; Scene.boxSkel]
  = getConstraintForcesJacobianOfWorld handBox
      (simulation.mkWorld [Scene.arm; Scene.boxSkel]).
Proof.
  exact (proj1 (getConstraintForcesJacobian_blocks_agree handBox handBoxCC
                  [Scene.arm; Scene.boxSkel] eq_refl)).
Defined.

(** X19 at the arm and the box. *)
Lemma getConstraintForcesJacobian_rows_stack_witness :
  getConstraintForcesJacobianOfSkeletons handBox [Scene.arm; Scene.boxSkel]
    Scene.arm
  = @concat _ <$> mapM (fun skel => getConstraintForcesJacobian handBox skel Scene.arm)
                    [Scene.arm; Scene.boxSkel].
Proof.
  exact (getConstraintForcesJacobian_rows_stack handBox handBoxCC
           [Scene.arm; Scene.boxSkel] Scene.arm eq_refl).
Defined.

(** X20 at a joint limit of the arm. *)
Lemma non_contact_gradients_undefined_witness :
  getDofContactType (Scene.jointLimit (D:=Qc) 0) Scene.elbow = None /\
  getContactPositionGradient (Scene.jointLimit (D:=Qc) 0) Scene.elbow = None.
Proof.
  pose proof (non_contact_gradients_undefined (Scene.jointLimit (D:=Qc) 0)
                Scene.elbow Scene.shoulder Scene.arm Scene.arm eq_refl)
    as [Htype [Hposition _]].
  split; [exact Htype | exact Hposition].
Defined.

(** ** The assembled vectors and matrices evaluated in binary64 arithmetic *)

Local Open Scope float_scope.

(** Hand on box with normal (0,1,0): over the world of arm and box the
    forces are those of the arm followed by those of the box; the force
    Jacobian has one column per degree of freedom, and only the box, which
    carries the face, turns the force direction. *)
Example world_forces_and_force_jacobian :
  let c := Scene.handOnBox (D:=float) collision.VERTEX_FACE (V3 0 1 0) 0 in
  getConstraintForcesOfWorld c ScenePerturbations.world = [1; 1; -1] /\
  getContactForceJacobianOfWorld c ScenePerturbations.world
  = Some [V6 (V3 0 0 0) (V3 0 0 0); V6 (V3 0 0 0) (V3 0 0 0);
          V6 (V3 0 0 0) (V3 (-1) 0 0)].
Proof. split; vm_compute; reflexivity. Qed.

(** The Jacobian of the constraint forces of a joint limit has no value as
    soon as the world has a degree of freedom, while its forces have. *)
Example joint_limit_jacobian :
  let c := Scene.jointLimit (D:=float) 0 in
  getConstraintForcesJacobianOfWorld c ScenePerturbations.world = None /\
  getConstraintForcesOfWorld c ScenePerturbations.world = [0; 0; 0].
Proof. split; vm_compute; reflexivity. Qed.
